(** * A verification model of the cloud network simulator (main.py)

    The development embeds the simulation engine of [main.py]: the numbers
    Python computes with, the TCP Tahoe/Reno congestion controllers, the
    shortest-path router (Dijkstra) with its breadth-first sibling, and the
    packet life cycle of [CloudNetworkSimulator].  Definitions come first,
    in the order of the source; the theorems about them follow. *)

From Stdlib Require Import ZArith QArith Qround Qminmax Lqa Lia.
From stdpp Require Import gmap list strings pretty.

(** ** Python numbers *)

(** Rounding of a real result to the machine's [float] format.  The
    development is parametric in it: the laws it relies on are collected in
    [RoundingOk] below and hold for IEEE-754 round-to-nearest on its finite
    range as well as for exact arithmetic. *)
Class Rounding := fl : Q -> Q.

(** Rounding is monotone and leaves the integers up to [2^53] alone. *)
Class RoundingOk `{Rounding} : Prop := {
  fl_mono : forall x y : Q, (x <= y)%Q -> (fl x <= fl y)%Q;
  fl_exact : forall n : Z,
    (Z.abs n <= 2 ^ 53)%Z -> (fl (inject_Z n) == inject_Z n)%Q
}.

(** Exact arithmetic: every rational is a machine number. *)
Definition exact_rounding : Rounding := fun x => x.

Module Py.

(** A Python number is an [int] (unbounded) or a [float]. *)
Inductive num : Type :=
| Int (z : Z)
| Float (q : Q).

(** The mathematical value of a number. *)
Definition val (a : num) : Q :=
  match a with
  | Int z => inject_Z z
  | Float q => q
  end.

Section Arith.
Context `{Rounding}.

(** [float(a)] *)
Definition to_float (a : num) : Q :=
  match a with
  | Int z => fl (inject_Z z)
  | Float q => q
  end.

(** [a + b]: exact on two ints, a rounded float otherwise. *)
Definition add (a b : num) : num :=
  match a, b with
  | Int x, Int y => Int (x + y)
  | _, _ => Float (fl (to_float a + to_float b))
  end.

(** [a - b] *)
Definition sub (a b : num) : num :=
  match a, b with
  | Int x, Int y => Int (x - y)
  | _, _ => Float (fl (to_float a - to_float b))
  end.

(** [a * b] *)
Definition mul (a b : num) : num :=
  match a, b with
  | Int x, Int y => Int (x * y)
  | _, _ => Float (fl (to_float a * to_float b))
  end.

(** [a / b]: true division, always a float.  Python raises
    [ZeroDivisionError] for [b = 0]; every divisor in the program is at
    least 1 where the division is reached (see [TCPFacts.divisor_positive]),
    or guarded by a test. *)
Definition truediv (a b : num) : num :=
  Float (fl (to_float a / to_float b)).

(** A float literal of the source, such as [0.2]. *)
Definition lit (q : Q) : num := Float (fl q).

End Arith.

(** Comparisons are exact, also between an int and a float. *)
Definition ltb (a b : num) : bool := negb (Qle_bool (val b) (val a)).
Definition leb (a b : num) : bool := Qle_bool (val a) (val b).
Definition geb (a b : num) : bool := leb b a.
Definition gtb (a b : num) : bool := ltb b a.

(** [max(a, b)]: the first argument unless the second is larger. *)
Definition max (a b : num) : num := if ltb a b then b else a.

(** [min(a, b)]: the first argument unless the second is smaller. *)
Definition min (a b : num) : num := if ltb b a then b else a.

(** [int(a)]: truncation towards zero. *)
Definition int (a : num) : Z :=
  match a with
  | Int z => z
  | Float q => Z.quot (Qnum q) (Zpos (Qden q))
  end.

End Py.

(** ** TCP congestion control (classes TCPCongestionControl, TCPTahoe, TCPReno) *)

Module TCP.

Inductive State : Type := slow_start | congestion_avoidance | fast_recovery.

Inductive Algorithm : Type := Tahoe | Reno.

#[global] Instance State_eq_dec : EqDecision State.
Proof. solve_decision. Defined.

#[global] Instance Algorithm_eq_dec : EqDecision Algorithm.
Proof. solve_decision. Defined.

(** The attributes of a controller; [algorithm] tells the subclass. *)
Record t : Type := mk {
  cwnd : Py.num;
  ssthresh : Py.num;
  state : State;
  duplicate_acks : Z;
  packets_sent : Z;
  packets_acked : Z;
  algorithm : Algorithm
}.

(** [TCPCongestionControl.__init__], then the subclass's tag. *)
Definition init (a : Algorithm) : t :=
  {| cwnd := Py.Int 1;
     ssthresh := Py.Int 64;
     state := slow_start;
     duplicate_acks := 0;
     packets_sent := 0;
     packets_acked := 0;
     algorithm := a |}.

Definition TCPTahoe : t := init Tahoe.
Definition TCPReno : t := init Reno.

(** Assignments to one attribute of a controller. *)
Definition set_cwnd (v : Py.num) (c : t) : t :=
  mk v (ssthresh c) (state c) (duplicate_acks c) (packets_sent c)
     (packets_acked c) (algorithm c).
Definition set_ssthresh (v : Py.num) (c : t) : t :=
  mk (cwnd c) v (state c) (duplicate_acks c) (packets_sent c)
     (packets_acked c) (algorithm c).
Definition set_state (v : State) (c : t) : t :=
  mk (cwnd c) (ssthresh c) v (duplicate_acks c) (packets_sent c)
     (packets_acked c) (algorithm c).
Definition set_duplicate_acks (v : Z) (c : t) : t :=
  mk (cwnd c) (ssthresh c) (state c) v (packets_sent c)
     (packets_acked c) (algorithm c).
Definition set_packets_sent (v : Z) (c : t) : t :=
  mk (cwnd c) (ssthresh c) (state c) (duplicate_acks c) v
     (packets_acked c) (algorithm c).
Definition set_packets_acked (v : Z) (c : t) : t :=
  mk (cwnd c) (ssthresh c) (state c) (duplicate_acks c) (packets_sent c)
     v (algorithm c).

(** [get_window_size]: [max(1, int(self.cwnd))] *)
Definition get_window_size (c : t) : Z := Z.max 1 (Py.int (cwnd c)).

Section Handlers.
Context `{Rounding}.

(** [on_timeout], the same text in both subclasses. *)
Definition on_timeout (c : t) : t :=
  let c := set_ssthresh (Py.max (Py.truediv (cwnd c) (Py.Int 2)) (Py.Int 2)) c in
  let c := set_cwnd (Py.Int 1) c in
  let c := set_state slow_start c in
  set_duplicate_acks 0 c.

(** [TCPTahoe.on_ack_received] *)
Definition tahoe_on_ack_received (c : t) : t :=
  let c := set_packets_acked (packets_acked c + 1) c in
  let c := set_duplicate_acks 0 c in
  match state c with
  | slow_start =>
      let c := set_cwnd (Py.add (cwnd c) (Py.Int 1)) c in
      if Py.geb (cwnd c) (ssthresh c)
      then set_state congestion_avoidance c
      else c
  | congestion_avoidance =>
      set_cwnd (Py.add (cwnd c) (Py.truediv (Py.Float 1) (cwnd c))) c
  | fast_recovery => c
  end.

(** [TCPTahoe.on_duplicate_ack] *)
Definition tahoe_on_duplicate_ack (c : t) : t :=
  let c := set_duplicate_acks (duplicate_acks c + 1) c in
  if (3 <=? duplicate_acks c)%Z then on_timeout c else c.

(** [TCPReno.on_ack_received] *)
Definition reno_on_ack_received (c : t) : t :=
  let c := set_packets_acked (packets_acked c + 1) c in
  match state c with
  | slow_start =>
      let c := set_cwnd (Py.add (cwnd c) (Py.Int 1)) c in
      let c := set_duplicate_acks 0 c in
      if Py.geb (cwnd c) (ssthresh c)
      then set_state congestion_avoidance c
      else c
  | congestion_avoidance =>
      let c := set_cwnd (Py.add (cwnd c) (Py.truediv (Py.Float 1) (cwnd c))) c in
      set_duplicate_acks 0 c
  | fast_recovery =>
      let c := set_cwnd (ssthresh c) c in
      let c := set_state congestion_avoidance c in
      set_duplicate_acks 0 c
  end.

(** [TCPReno.on_duplicate_ack] *)
Definition reno_on_duplicate_ack (c : t) : t :=
  let c := set_duplicate_acks (duplicate_acks c + 1) c in
  if (duplicate_acks c =? 3)%Z then
    let c := set_ssthresh (Py.max (Py.truediv (cwnd c) (Py.Int 2)) (Py.Int 2)) c in
    let c := set_cwnd (Py.add (ssthresh c) (Py.Int 3)) c in
    set_state fast_recovery c
  else
    match state c with
    | fast_recovery => set_cwnd (Py.add (cwnd c) (Py.Int 1)) c
    | _ => c
    end.

(** Method dispatch on the subclass. *)
Definition on_ack_received (c : t) : t :=
  match algorithm c with
  | Tahoe => tahoe_on_ack_received c
  | Reno => reno_on_ack_received c
  end.

Definition on_duplicate_ack (c : t) : t :=
  match algorithm c with
  | Tahoe => tahoe_on_duplicate_ack c
  | Reno => reno_on_duplicate_ack c
  end.

(** The three events a controller reacts to, and a run over a sequence. *)
Inductive event : Type := Ack | DuplicateAck | Timeout.

Definition step (c : t) (e : event) : t :=
  match e with
  | Ack => on_ack_received c
  | DuplicateAck => on_duplicate_ack c
  | Timeout => on_timeout c
  end.

Definition run (c : t) (es : list event) : t := fold_left step es c.

End Handlers.

(** What a controller keeps true: the window is at least one packet and
    the threshold at least two. *)
Definition ok (c : t) : Prop :=
  (1 <= Py.val (cwnd c))%Q /\ (2 <= Py.val (ssthresh c))%Q.

End TCP.

(** ** What a call can do: return, raise, or run for ever *)

Inductive exn : Type := KeyError | IndexError | OverflowError.

Inductive outcome (A : Type) : Type :=
| Returns (a : A)
| Raises (e : exn)
| Diverges.

Arguments Returns {A} a.
Arguments Raises {A} e.
Arguments Diverges {A}.

(** [d[k]] on a dict: a missing key raises [KeyError]. *)
Definition getitem {K V : Type} `{Countable K} (d : gmap K V) (k : K) : outcome V :=
  match d !! k with
  | Some v => Returns v
  | None => Raises KeyError
  end.

Definition bind {A B : Type} (m : outcome A) (k : A -> outcome B) : outcome B :=
  match m with
  | Returns a => k a
  | Raises e => Raises e
  | Diverges => Diverges
  end.

Notation "'let*' x ':=' m 'in' k" := (bind m (fun x => k))
  (at level 10, x name, m at level 100, k at level 200).

(** ** The router: [dijkstra_shortest_path] and [find_path] *)

Module Router.

(** A node is known by its identity, as Python compares and hashes
    [NetworkNode] objects. *)
Definition node : Type := nat.

(** What the routing functions read of the simulator: the list
    [self.nodes], and of each node its [connections] and [latency]. *)
Record Topology : Type := {
  nodes : list node;
  connections : node -> list node;
  latency : node -> Z
}.

(** A tentative distance: an int, or [float('infinity')]. *)
Inductive distance : Type :=
| Finite (d : Z)
| Infinity.

(** [a < b] on distances *)
Definition dist_ltb (a b : distance) : bool :=
  match a, b with
  | Finite x, Finite y => (x <? y)%Z
  | Finite _, Infinity => true
  | Infinity, _ => false
  end.

(** [a + z] *)
Definition dist_add (a : distance) (z : Z) : distance :=
  match a with
  | Finite x => Finite (x + z)
  | Infinity => Infinity
  end.

(** The loop's three variables.  The set [unvisited] is kept as the list
    of its elements in iteration order. *)
Record dstate : Type := {
  distances : gmap node distance;
  previous : gmap node (option node);
  unvisited : list node
}.

(** [min(unvisited, key=lambda node: distances[node])] after the first
    element: the running best is replaced only by a strictly smaller key. *)
Fixpoint min_from (d : gmap node distance) (best : node) (kbest : distance)
    (rest : list node) : outcome (node * distance) :=
  match rest with
  | [] => Returns (best, kbest)
  | n :: rest' =>
      let* k := getitem d n in
      if dist_ltb k kbest then min_from d n k rest' else min_from d best kbest rest'
  end.

Definition min_unvisited (d : gmap node distance) (first : node) (rest : list node)
    : outcome (node * distance) :=
  let* k := getitem d first in min_from d first k rest.

(** The body of [for neighbor in current.connections]. *)
Definition relax (G : Topology) (current : node) (st : dstate) (neighbor : node)
    : outcome dstate :=
  if bool_decide (neighbor ∈ unvisited st) then
    let* dcur := getitem (distances st) current in
    let alt_distance := dist_add dcur (latency G current) in
    let* dn := getitem (distances st) neighbor in
    if dist_ltb alt_distance dn then
      Returns {| distances := <[neighbor := alt_distance]> (distances st);
                 previous := <[neighbor := Some current]> (previous st);
                 unvisited := unvisited st |}
    else Returns st
  else Returns st.

Fixpoint relax_all (G : Topology) (current : node) (st : dstate)
    (neighbors : list node) : outcome dstate :=
  match neighbors with
  | [] => Returns st
  | neighbor :: rest =>
      let* st' := relax G current st neighbor in relax_all G current st' rest
  end.

(** [while current: path.append(current); current = previous[current]].
    A node object is always true; the loop ends on [None]. *)
Fixpoint reconstruct (fuel : nat) (prev : gmap node (option node))
    (current : option node) (path : list node) : outcome (list node) :=
  match current with
  | None => Returns path
  | Some c =>
      match fuel with
      | O => Diverges
      | S fuel' =>
          let* p := getitem prev c in
          reconstruct fuel' prev p (path ++ [c])
      end
  end.

(** [unvisited.remove(u)] *)
Definition drop (u : node) (st : dstate) : dstate :=
  {| distances := distances st;
     previous := previous st;
     unvisited := filter (fun n => n ≠ u) (unvisited st) |}.

(** The result of one turn of the [while unvisited] loop. *)
Inductive turn : Type :=
| Continue (st : dstate)
| Done (r : option (list node) * distance).

(** One turn, for a non-empty [unvisited]; [bound] limits the walk back
    along [previous]. *)
Definition dijkstra_turn (G : Topology) (destination : node) (bound : nat)
    (st : dstate) (first : node) (rest : list node) : outcome turn :=
  let* best := min_unvisited (distances st) first rest in
  let current := best.1 in
  let* dcur := getitem (distances st) current in
  match dcur with
  | Infinity => Returns (Done (None, Infinity))
  | Finite _ =>
      if decide (current = destination) then
        let* path := reconstruct bound (previous st) (Some current) [] in
        let* total := getitem (distances st) destination in
        Returns (Done (Some (reverse path), total))
      else
        let st := drop current st in
        let* st := relax_all G current st (connections G current) in
        Returns (Continue st)
  end.

Fixpoint dijkstra_loop (fuel : nat) (G : Topology) (destination : node)
    (bound : nat) (st : dstate) : outcome (option (list node) * distance) :=
  match fuel with
  | O => Diverges
  | S fuel' =>
      match unvisited st with
      | [] => Returns (None, Infinity)
      | first :: rest =>
          let* t := dijkstra_turn G destination bound st first rest in
          match t with
          | Done r => Returns r
          | Continue st' => dijkstra_loop fuel' G destination bound st'
          end
      end
  end.

(** The three variables as the loop finds them.  The set built from
    [self.nodes] is iterated in the order of the list; a statement about
    every topology covers every other order. *)
Definition initial (G : Topology) (source : node) : dstate :=
  {| distances :=
       <[source := Finite 0]> (list_to_map ((fun n => (n, Infinity)) <$> nodes G));
     previous := list_to_map ((fun n => (n, None)) <$> nodes G);
     unvisited := remove_dups (nodes G) |}.

(** [dijkstra_shortest_path(source, destination)].  Each turn removes a
    node, so the loop needs at most one turn per node and a last test. *)
Definition dijkstra_shortest_path (G : Topology) (source destination : node)
    : outcome (option (list node) * distance) :=
  let st := initial G source in
  dijkstra_loop (S (length (unvisited st))) G destination (length (unvisited st)) st.

(** The body of [for neighbor in node.connections] in [find_path]. *)
Definition enqueue (visited : gset node) (path : list node)
    (queue : list (node * list node)) (neighbor : node) : list (node * list node) :=
  if bool_decide (neighbor ∈ visited) then queue
  else queue ++ [(neighbor, path ++ [neighbor])].

Fixpoint find_path_loop (fuel : nat) (G : Topology) (destination : node)
    (visited : gset node) (queue : list (node * list node))
    : outcome (option (list node)) :=
  match fuel with
  | O => Diverges
  | S fuel' =>
      match queue with
      | [] => Returns None
      | (n, path) :: queue =>
          if decide (n = destination) then Returns (Some path)
          else if bool_decide (n ∈ visited) then
            find_path_loop fuel' G destination visited queue
          else
            let visited := {[n]} ∪ visited in
            let queue := fold_left (enqueue visited path) (connections G n) queue in
            find_path_loop fuel' G destination visited queue
      end
  end.

(** Every turn pops an entry, and entries are pushed only when a node is
    visited for the first time: one per connection of that node. *)
Definition find_path_fuel (G : Topology) : nat :=
  2 + sum_list_with (fun n => S (length (connections G n))) (nodes G).

(** [find_path(source, destination)] *)
Definition find_path (G : Topology) (source destination : node)
    : outcome (option (list node)) :=
  find_path_loop (find_path_fuel G) G destination ∅ [(source, [source])].

(** *** Paths and their cost *)

(** [linked G m n]: the walk may step from [m] to [n]. *)
Definition linked (G : Topology) (m n : node) : Prop := n ∈ connections G m.

(** [is_path G a b p]: [p] starts at [a], ends at [b], and each node is
    linked to the next. *)
Inductive is_path (G : Topology) (a : node) : node -> list node -> Prop :=
| path_start : is_path G a a [a]
| path_step m n p : is_path G a m p -> linked G m n -> is_path G a n (p ++ [n]).

(** The sum of [latency] over all nodes of a path but the last. *)
Fixpoint path_cost (G : Topology) (p : list node) : Z :=
  match p with
  | [] => 0
  | n :: rest =>
      match rest with
      | [] => 0
      | _ :: _ => latency G n + path_cost G rest
      end
  end.

(** [consecutive G p]: each node of [p] is linked to the next. *)
Definition consecutive (G : Topology) (p : list node) : Prop :=
  forall i m n, p !! i = Some m -> p !! S i = Some n -> linked G m n.

(** [valid_path G a b p]: the same paths, said in one sentence: [p] starts
    at [a], ends at [b], and its consecutive nodes are linked. *)
Definition valid_path (G : Topology) (a b : node) (p : list node) : Prop :=
  head p = Some a /\ last p = Some b /\ consecutive G p.

(** [b] can be reached from [a]: some path leads there. *)
Definition reachable (G : Topology) (a b : node) : Prop :=
  exists p, valid_path G a b p.

(** Links go both ways, as the three appends of a connection make them. *)
Definition symmetric_links (G : Topology) : Prop :=
  forall m n, linked G m n -> linked G n m.

(** Every connection of a node of [self.nodes] leads to a node of
    [self.nodes]: the program links only nodes it has appended there. *)
Record wf_links (G : Topology) : Prop := {
  links_closed : forall m n, m ∈ nodes G -> linked G m n -> n ∈ nodes G
}.

(** Latencies are what [NetworkNode.__init__] draws: [random.randint(5, 50)]. *)
Record wf_latency (G : Topology) : Prop := {
  latency_range : forall n, n ∈ nodes G -> (5 <= latency G n <= 50)%Z
}.

(** The two conditions as tests, to run on a given topology. *)
Definition wf_linksb (G : Topology) : bool :=
  forallb (fun m => forallb (fun n => bool_decide (n ∈ nodes G)) (connections G m))
          (nodes G).

Definition wf_latencyb (G : Topology) : bool :=
  forallb (fun n => (5 <=? latency G n)%Z && (latency G n <=? 50)%Z) (nodes G).

(** *** The invariants of the two searches *)

(** [a <= b] on distances *)
Definition dist_le (a b : distance) : Prop := dist_ltb b a = false.

(** [improved st alt ns n]: the loop over [ns] gives [n] the distance [alt]. *)
Definition improved (st : dstate) (alt : distance) (ns : list node) (n : node) : bool :=
  bool_decide (n ∈ ns) && bool_decide (n ∈ unvisited st) &&
  match distances st !! n with
  | Some dn => dist_ltb alt dn
  | None => false
  end.

Section Dijkstra.
Context (G : Topology) (source destination : node).

(** [chain P Q n p]: following [P] back from [n] spells the path [p] from
    the source, whose nodes before the last all satisfy [Q]. *)
Inductive chain (P : gmap node (option node)) (Q : node -> Prop)
    : node -> list node -> Prop :=
| chain_source : P !! source = Some None -> chain P Q source [source]
| chain_step m n p :
    P !! n = Some (Some m) -> chain P Q m p -> Q m -> linked G m n ->
    chain P Q n (p ++ [n]).

Section Invariant.
Context (N : nat).

(** What holds of the three variables at each turn of the loop, [N] being
    the number of nodes the loop started from. *)
Record inv (st : dstate) : Prop := {
  inv_keys_d : forall n, n ∈ nodes G -> is_Some (distances st !! n);
  inv_keys_p : forall n, n ∈ nodes G -> is_Some (previous st !! n);
  inv_sub : forall n, n ∈ unvisited st -> n ∈ nodes G;
  inv_source : distances st !! source = Some (Finite 0);
  inv_fresh : source ∈ unvisited st ->
    forall n, n ∈ unvisited st -> n ≠ source -> distances st !! n = Some Infinity;
  inv_chain : forall n d, n ∈ nodes G -> distances st !! n = Some (Finite d) ->
    exists p, chain (previous st) (fun m => m ∉ unvisited st) n p /\
      path_cost G p = d /\ length p + length (unvisited st) <= S N;
  inv_settled : forall v, v ∈ nodes G -> v ∉ unvisited st ->
    exists d, distances st !! v = Some (Finite d);
  inv_dest : destination ∈ nodes G -> destination ∈ unvisited st
}.

(** [is_min st u du]: [u] is an unvisited node whose distance [du] is the
    least among the unvisited. *)
Definition is_min (st : dstate) (u : node) (du : distance) : Prop :=
  u ∈ unvisited st /\ distances st !! u = Some du /\
  forall n kn, n ∈ unvisited st -> distances st !! n = Some kn -> dist_le du kn.

(** [relaxed st u d st']: [st'] is [st] after the turn that settles [u] at
    distance [d]: [u] is no longer unvisited, and the unvisited neighbours
    of [u] that gain by it go through [u]. *)
Definition relaxed (st : dstate) (u : node) (d : Z) (st' : dstate) : Prop :=
  unvisited st' = unvisited (drop u st) /\
  forall n,
    distances st' !! n =
      (if improved (drop u st) (Finite (d + latency G u)) (connections G u) n
       then Some (Finite (d + latency G u)) else distances st !! n) /\
    previous st' !! n =
      (if improved (drop u st) (Finite (d + latency G u)) (connections G u) n
       then Some (Some u) else previous st !! n).

(** What one turn does. *)
Inductive turn_spec (st : dstate) : turn -> Prop :=
| turn_unreached u :
    is_min st u Infinity -> turn_spec st (Done (None, Infinity))
| turn_found d p :
    is_min st destination (Finite d) ->
    chain (previous st) (fun m => m ∉ unvisited st) destination p ->
    path_cost G p = d ->
    turn_spec st (Done (Some p, Finite d))
| turn_next u d st' :
    is_min st u (Finite d) -> u ≠ destination -> relaxed st u d st' ->
    turn_spec st (Continue st').

(** Links out of settled nodes lead to reached nodes. *)
Definition closed (st : dstate) : Prop :=
  forall v n, v ∈ nodes G -> v ∉ unvisited st -> linked G v n ->
    exists d, distances st !! n = Some (Finite d).

(** Settled distances are least, and no link out of a settled node would
    shorten a distance. *)
Record opt (st : dstate) : Prop := {
  opt_order : forall v w dv dw,
    v ∈ nodes G -> v ∉ unvisited st -> w ∈ unvisited st ->
    distances st !! v = Some (Finite dv) -> distances st !! w = Some (Finite dw) ->
    (dv <= dw)%Z;
  opt_relaxed : forall v n dv,
    v ∈ nodes G -> v ∉ unvisited st -> linked G v n ->
    distances st !! v = Some (Finite dv) ->
    exists dn, distances st !! n = Some (Finite dn) /\ (dn <= dv + latency G v)%Z
}.

(** No latency is negative. *)
Definition latency_nonneg : Prop := forall n, n ∈ nodes G -> (0 <= latency G n)%Z.

End Invariant.
End Dijkstra.

Section FindPath.
Context (G : Topology) (source destination : node).

(** What holds of [visited] and [queue] at each turn of the loop of
    [find_path]. *)
Record binv (visited : gset node) (queue : list (node * list node)) : Prop := {
  binv_paths : forall n p, (n, p) ∈ queue -> is_path G source n p;
  binv_visited : forall v, v ∈ visited -> v ∈ nodes G;
  binv_source : source ∈ visited \/ source ∈ queue.*1;
  binv_closed : forall v n, v ∈ visited -> linked G v n -> n ∈ visited \/ n ∈ queue.*1;
  binv_dest : destination ∉ visited
}.

(** The number of turns still to come is bounded by the queue's length
    and the connections of the nodes not visited yet. *)
Definition weight (visited : gset node) (n : node) : nat :=
  if bool_decide (n ∈ visited) then 0 else S (length (connections G n)).

Definition measure (visited : gset node) (queue : list (node * list node)) : nat :=
  length queue + sum_list_with (weight visited) (nodes G).

End FindPath.

(** *** Two topologies to run the router on *)

(** What [create_star_topology] builds: ROUTER1 (node 0) linked to PC1..PC6
    (nodes 1..6), here with latencies 20 for the router and 5, 10, 15, 25,
    30, 50 for the PCs. *)
Definition star : Topology :=
  {| nodes := [0; 1; 2; 3; 4; 5; 6];
     connections := fun n =>
       match n with
       | 0 => [1; 2; 3; 4; 5; 6]
       | 1 | 2 | 3 | 4 | 5 | 6 => [0]
       | _ => []
       end;
     latency := fun n =>
       match n with
       | 0 => 20%Z
       | 1 => 5%Z
       | 2 => 10%Z
       | 3 => 15%Z
       | 4 => 25%Z
       | 5 => 30%Z
       | _ => 50%Z
       end |}.

(** Two nodes added and never connected. *)
Definition two_nodes : Topology :=
  {| nodes := [0; 1];
     connections := fun _ => [];
     latency := fun n => match n with 0 => 12%Z | _ => 40%Z end |}.

End Router.

(** ** The simulator (classes NetworkNode, Packet and CloudNetworkSimulator)

    The window, its widgets and the drawing of the canvas are left out,
    and so are the five ready-made topologies, the reset and the dragging
    of nodes; what is kept is every attribute and method the simulation of
    nodes added and connected by hand reads or writes.  The answers of the
    outside world (the random module and the clock) are arguments of the
    methods that ask for them. *)

Module Node.

Inductive NodeType : Type := cloud | router | switch | pc.

#[global] Instance NodeType_eq_dec : EqDecision NodeType.
Proof. solve_decision. Defined.

(** [node_type.upper()] *)
Definition upper (t : NodeType) : string :=
  match t with
  | cloud => "CLOUD"
  | router => "ROUTER"
  | switch => "SWITCH"
  | pc => "PC"
  end.

(** The attributes of a [NetworkNode] (but for the list [packets], which
    nothing reads). *)
Record t : Type := mk {
  x : Z;
  y : Z;
  type : NodeType;
  name : string;
  connections : list Router.node;
  latency : Z;
  throughput : Z;
  congestion : Py.num;
  hop_count : Z;
  tcp_control : option TCP.t;
  packet_loss_probability : Py.num;
  last_ack_time : Py.num;
  timeout_threshold : Py.num;
  packets_in_flight : Z;
  max_buffer_size : Z
}.

(** [NetworkNode.__init__]; [latency] and [throughput] are the two draws
    of [random.randint], [now] the reading of [time.time()]. *)
Definition init (x y : Z) (node_type : NodeType) (name : string)
    (latency throughput : Z) (now : Py.num) : t :=
  {| x := x;
     y := y;
     type := node_type;
     name := name;
     connections := [];
     latency := latency;
     throughput := throughput;
     congestion := Py.Int 0;
     hop_count := 0;
     tcp_control := None;
     packet_loss_probability := Py.Float 0;
     last_ack_time := now;
     timeout_threshold := Py.Float 2;
     packets_in_flight := 0;
     max_buffer_size := 10 |}.

(** Assignments to one attribute of a node. *)
Definition set_connections (v : list Router.node) (r : t) : t :=
  mk (x r) (y r) (type r) (name r) v (latency r) (throughput r)
     (congestion r) (hop_count r) (tcp_control r)
     (packet_loss_probability r) (last_ack_time r) (timeout_threshold r)
     (packets_in_flight r) (max_buffer_size r).

Definition set_congestion (v : Py.num) (r : t) : t :=
  mk (x r) (y r) (type r) (name r) (connections r) (latency r)
     (throughput r) v (hop_count r) (tcp_control r)
     (packet_loss_probability r) (last_ack_time r) (timeout_threshold r)
     (packets_in_flight r) (max_buffer_size r).

Definition set_tcp_control (v : option TCP.t) (r : t) : t :=
  mk (x r) (y r) (type r) (name r) (connections r) (latency r)
     (throughput r) (congestion r) (hop_count r) v
     (packet_loss_probability r) (last_ack_time r) (timeout_threshold r)
     (packets_in_flight r) (max_buffer_size r).

Definition set_packet_loss_probability (v : Py.num) (r : t) : t :=
  mk (x r) (y r) (type r) (name r) (connections r) (latency r)
     (throughput r) (congestion r) (hop_count r) (tcp_control r) v
     (last_ack_time r) (timeout_threshold r) (packets_in_flight r)
     (max_buffer_size r).

Definition set_last_ack_time (v : Py.num) (r : t) : t :=
  mk (x r) (y r) (type r) (name r) (connections r) (latency r)
     (throughput r) (congestion r) (hop_count r) (tcp_control r)
     (packet_loss_probability r) v (timeout_threshold r)
     (packets_in_flight r) (max_buffer_size r).

Definition set_packets_in_flight (v : Z) (r : t) : t :=
  mk (x r) (y r) (type r) (name r) (connections r) (latency r)
     (throughput r) (congestion r) (hop_count r) (tcp_control r)
     (packet_loss_probability r) (last_ack_time r) (timeout_threshold r) v
     (max_buffer_size r).

(** A method call on [self.tcp_control], which changes that object. *)
Definition with_control (f : TCP.t -> TCP.t) (r : t) : t :=
  set_tcp_control (f <$> tcp_control r) r.

Inductive level : Type := low | medium | high | critical.

(** [get_congestion_level] *)
Definition get_congestion_level (r : t) : level :=
  if Py.leb (congestion r) (Py.Int 1) then low
  else if Py.leb (congestion r) (Py.Int 3) then medium
  else if Py.leb (congestion r) (Py.Int 5) then high
  else critical.

End Node.

Module Packet.

(** The attributes of a [Packet] once [start_packet_generation] has
    filled it in (but for its colour). *)
Record t : Type := mk {
  source : Router.node;
  destination : Router.node;
  path : list Router.node;
  current_index : Z;
  progress : Py.num;
  hop_count : Z;
  total_latency : Router.distance;
  timestamp : Py.num;
  completed : bool;
  cwnd : Z;
  algorithm : TCP.Algorithm
}.

End Packet.

Module Sim.

Definition node : Type := Router.node.

Inductive TrafficLoad : Type := light | medium | heavy.

(** What [self.root.after] is asked to call later. *)
Inductive callback : Type :=
| call_start_packet_generation
| call_decay_congestion
| call_handle_packet_ack (source : node) (path : list node).

(** An entry of [routing_stats['path_history']]. *)
Record PathEntry : Type := {
  hops : Z;
  latency : Router.distance;
  time : Py.num
}.

(** The dict [routing_stats]. *)
Record RoutingStats : Type := {
  total_packets : Z;
  avg_hop_count : Py.num;
  min_hops : Router.distance;
  max_hops : Z;
  path_history : list PathEntry
}.

Definition no_stats : RoutingStats :=
  {| total_packets := 0;
     avg_hop_count := Py.Int 0;
     min_hops := Router.Infinity;
     max_hops := 0;
     path_history := [] |}.

(** The simulator.  [heap] holds the [NetworkNode] objects by identity and
    [allocated] counts them; the other fields are attributes of
    [CloudNetworkSimulator], [timers] being the calls pending in
    [self.root.after] with their delays. *)
Record t : Type := mk {
  heap : node -> Node.t;
  allocated : nat;
  nodes : list node;
  connections : list (node * node);
  packets : list Packet.t;
  selected_node : option node;
  dragging_node : option node;
  connection_mode : bool;
  simulation_running : bool;
  latency_history : list Router.distance;
  throughput_history : list Py.num;
  time_stamps : list Py.num;
  performance_start_time : Py.num;
  traffic_load : TrafficLoad;
  packet_generation_rate : Z;
  congestion_algorithm : TCP.Algorithm;
  routing_stats : RoutingStats;
  timers : list (Z * callback)
}.

(** Assignments to one attribute of the simulator. *)
Definition with_heap (v : Router.node -> Node.t) (r : t) : t :=
  mk v (allocated r) (nodes r) (connections r) (packets r) (selected_node r)
     (dragging_node r) (connection_mode r) (simulation_running r)
     (latency_history r) (throughput_history r) (time_stamps r)
     (performance_start_time r) (traffic_load r) (packet_generation_rate r)
     (congestion_algorithm r) (routing_stats r) (timers r).

Definition with_allocated (v : nat) (r : t) : t :=
  mk (heap r) v (nodes r) (connections r) (packets r) (selected_node r)
     (dragging_node r) (connection_mode r) (simulation_running r)
     (latency_history r) (throughput_history r) (time_stamps r)
     (performance_start_time r) (traffic_load r) (packet_generation_rate r)
     (congestion_algorithm r) (routing_stats r) (timers r).

Definition with_nodes (v : list Router.node) (r : t) : t :=
  mk (heap r) (allocated r) v (connections r) (packets r) (selected_node r)
     (dragging_node r) (connection_mode r) (simulation_running r)
     (latency_history r) (throughput_history r) (time_stamps r)
     (performance_start_time r) (traffic_load r) (packet_generation_rate r)
     (congestion_algorithm r) (routing_stats r) (timers r).

Definition with_connections (v : list (Router.node * Router.node)) (r : t)
    : t :=
  mk (heap r) (allocated r) (nodes r) v (packets r) (selected_node r)
     (dragging_node r) (connection_mode r) (simulation_running r)
     (latency_history r) (throughput_history r) (time_stamps r)
     (performance_start_time r) (traffic_load r) (packet_generation_rate r)
     (congestion_algorithm r) (routing_stats r) (timers r).

Definition with_packets (v : list Packet.t) (r : t) : t :=
  mk (heap r) (allocated r) (nodes r) (connections r) v (selected_node r)
     (dragging_node r) (connection_mode r) (simulation_running r)
     (latency_history r) (throughput_history r) (time_stamps r)
     (performance_start_time r) (traffic_load r) (packet_generation_rate r)
     (congestion_algorithm r) (routing_stats r) (timers r).

Definition with_selected_node (v : option Router.node) (r : t) : t :=
  mk (heap r) (allocated r) (nodes r) (connections r) (packets r) v
     (dragging_node r) (connection_mode r) (simulation_running r)
     (latency_history r) (throughput_history r) (time_stamps r)
     (performance_start_time r) (traffic_load r) (packet_generation_rate r)
     (congestion_algorithm r) (routing_stats r) (timers r).

Definition with_dragging_node (v : option Router.node) (r : t) : t :=
  mk (heap r) (allocated r) (nodes r) (connections r) (packets r)
     (selected_node r) v (connection_mode r) (simulation_running r)
     (latency_history r) (throughput_history r) (time_stamps r)
     (performance_start_time r) (traffic_load r) (packet_generation_rate r)
     (congestion_algorithm r) (routing_stats r) (timers r).

Definition with_connection_mode (v : bool) (r : t) : t :=
  mk (heap r) (allocated r) (nodes r) (connections r) (packets r)
     (selected_node r) (dragging_node r) v (simulation_running r)
     (latency_history r) (throughput_history r) (time_stamps r)
     (performance_start_time r) (traffic_load r) (packet_generation_rate r)
     (congestion_algorithm r) (routing_stats r) (timers r).

Definition with_simulation_running (v : bool) (r : t) : t :=
  mk (heap r) (allocated r) (nodes r) (connections r) (packets r)
     (selected_node r) (dragging_node r) (connection_mode r) v
     (latency_history r) (throughput_history r) (time_stamps r)
     (performance_start_time r) (traffic_load r) (packet_generation_rate r)
     (congestion_algorithm r) (routing_stats r) (timers r).

Definition with_latency_history (v : list Router.distance) (r : t) : t :=
  mk (heap r) (allocated r) (nodes r) (connections r) (packets r)
     (selected_node r) (dragging_node r) (connection_mode r)
     (simulation_running r) v (throughput_history r) (time_stamps r)
     (performance_start_time r) (traffic_load r) (packet_generation_rate r)
     (congestion_algorithm r) (routing_stats r) (timers r).

Definition with_throughput_history (v : list Py.num) (r : t) : t :=
  mk (heap r) (allocated r) (nodes r) (connections r) (packets r)
     (selected_node r) (dragging_node r) (connection_mode r)
     (simulation_running r) (latency_history r) v (time_stamps r)
     (performance_start_time r) (traffic_load r) (packet_generation_rate r)
     (congestion_algorithm r) (routing_stats r) (timers r).

Definition with_time_stamps (v : list Py.num) (r : t) : t :=
  mk (heap r) (allocated r) (nodes r) (connections r) (packets r)
     (selected_node r) (dragging_node r) (connection_mode r)
     (simulation_running r) (latency_history r) (throughput_history r) v
     (performance_start_time r) (traffic_load r) (packet_generation_rate r)
     (congestion_algorithm r) (routing_stats r) (timers r).

Definition with_traffic_load (v : TrafficLoad) (r : t) : t :=
  mk (heap r) (allocated r) (nodes r) (connections r) (packets r)
     (selected_node r) (dragging_node r) (connection_mode r)
     (simulation_running r) (latency_history r) (throughput_history r)
     (time_stamps r) (performance_start_time r) v (packet_generation_rate r)
     (congestion_algorithm r) (routing_stats r) (timers r).

Definition with_packet_generation_rate (v : Z) (r : t) : t :=
  mk (heap r) (allocated r) (nodes r) (connections r) (packets r)
     (selected_node r) (dragging_node r) (connection_mode r)
     (simulation_running r) (latency_history r) (throughput_history r)
     (time_stamps r) (performance_start_time r) (traffic_load r) v
     (congestion_algorithm r) (routing_stats r) (timers r).

Definition with_congestion_algorithm (v : TCP.Algorithm) (r : t) : t :=
  mk (heap r) (allocated r) (nodes r) (connections r) (packets r)
     (selected_node r) (dragging_node r) (connection_mode r)
     (simulation_running r) (latency_history r) (throughput_history r)
     (time_stamps r) (performance_start_time r) (traffic_load r)
     (packet_generation_rate r) v (routing_stats r) (timers r).

Definition with_routing_stats (v : RoutingStats) (r : t) : t :=
  mk (heap r) (allocated r) (nodes r) (connections r) (packets r)
     (selected_node r) (dragging_node r) (connection_mode r)
     (simulation_running r) (latency_history r) (throughput_history r)
     (time_stamps r) (performance_start_time r) (traffic_load r)
     (packet_generation_rate r) (congestion_algorithm r) v (timers r).

Definition with_timers (v : list (Z * callback)) (r : t) : t :=
  mk (heap r) (allocated r) (nodes r) (connections r) (packets r)
     (selected_node r) (dragging_node r) (connection_mode r)
     (simulation_running r) (latency_history r) (throughput_history r)
     (time_stamps r) (performance_start_time r) (traffic_load r)
     (packet_generation_rate r) (congestion_algorithm r) (routing_stats r) v.

(** An object never created reads as a blank node. *)
Definition blank : Node.t := Node.init 0 0 Node.pc "" 0 0 (Py.Float 0).

(** [CloudNetworkSimulator.__init__] *)
Definition init (now : Py.num) : t :=
  {| heap := fun _ => blank;
     allocated := 0;
     nodes := [];
     connections := [];
     packets := [];
     selected_node := None;
     dragging_node := None;
     connection_mode := false;
     simulation_running := false;
     latency_history := [];
     throughput_history := [];
     time_stamps := [];
     performance_start_time := now;
     traffic_load := medium;
     packet_generation_rate := 1000;
     congestion_algorithm := TCP.Reno;
     routing_stats := no_stats;
     timers := [] |}.

(** An assignment to attributes of the node object [n]. *)
Definition update (n : node) (f : Node.t -> Node.t) (s : t) : t :=
  with_heap (fun k => if decide (k = n) then f (heap s k) else heap s k) s.

(** [for node in ns: ...] where the body assigns to attributes of [node]. *)
Definition update_all (ns : list node) (f : Node.t -> Node.t) (s : t) : t :=
  fold_left (fun s n => update n f s) ns s.

(** What the router reads of the simulator. *)
Definition topology (s : t) : Router.Topology :=
  {| Router.nodes := nodes s;
     Router.connections := fun n => Node.connections (heap s n);
     Router.latency := fun n => Node.latency (heap s n) |}.

(** [TCPTahoe()] or [TCPReno()], by [self.congestion_algorithm] *)
Definition new_control (a : TCP.Algorithm) : TCP.t :=
  match a with
  | TCP.Tahoe => TCP.TCPTahoe
  | TCP.Reno => TCP.TCPReno
  end.

(** [set_traffic_load] *)
Definition set_traffic_load (load_level : TrafficLoad) (s : t) : t :=
  let s := with_traffic_load load_level s in
  match load_level with
  | light => with_packet_generation_rate 2000 s
  | medium => with_packet_generation_rate 1000 s
  | heavy => with_packet_generation_rate 300 s
  end.

(** [set_congestion_algorithm] *)
Definition set_congestion_algorithm (algorithm : TCP.Algorithm) (s : t) : t :=
  let s := with_congestion_algorithm algorithm s in
  update_all (nodes s) (Node.set_tcp_control (Some (new_control algorithm))) s.

(** The draws [add_node] makes: two for the position, two inside
    [NetworkNode.__init__], and the clock. *)
Record NodeDraws : Type := {
  draw_x : Z;
  draw_y : Z;
  draw_latency : Z;
  draw_throughput : Z;
  draw_now : Py.num
}.

(** [add_node] *)
Definition add_node (node_type : Node.NodeType) (d : NodeDraws) (s : t) : t :=
  let same := filter (fun n => Node.type (heap s n) = node_type) (nodes s) in
  let name := (Node.upper node_type +:+ pretty (length same + 1))%string in
  let new := Node.init (draw_x d) (draw_y d) node_type name
               (draw_latency d) (draw_throughput d) (draw_now d) in
  let new := Node.set_tcp_control (Some (new_control (congestion_algorithm s))) new in
  let id := allocated s in
  let s := with_allocated (S id) s in
  let s := with_heap (fun k => if decide (k = id) then new else heap s k) s in
  with_nodes (nodes s ++ [id]) s.

(** [toggle_connection_mode] *)
Definition toggle_connection_mode (s : t) : t :=
  let s := with_connection_mode (negb (connection_mode s)) s in
  if connection_mode s then s else with_selected_node None s.

(** [get_node_at]: the first node less than 30 away.  Positions and click
    coordinates are ints, for which [math.sqrt(d2) < 30] is [d2 < 900]. *)
Definition near (s : t) (x y : Z) (n : node) : bool :=
  ((Node.x (heap s n) - x) ^ 2 + (Node.y (heap s n) - y) ^ 2 <? 900)%Z.

Definition get_node_at (s : t) (x y : Z) : option node :=
  List.find (near s x y) (nodes s).

(** The three appends that link two nodes. *)
Definition link (a b : node) (s : t) : t :=
  let s := update a (fun r => Node.set_connections (Node.connections r ++ [b]) r) s in
  let s := update b (fun r => Node.set_connections (Node.connections r ++ [a]) r) s in
  with_connections (connections s ++ [(a, b)]) s.

(** [on_canvas_click], once [get_node_at] has told the node clicked. *)
Definition click (clicked_node : option node) (s : t) : t :=
  match clicked_node with
  | Some clicked =>
      if connection_mode s then
        match selected_node s with
        | None => with_selected_node (Some clicked) s
        | Some selected =>
            if decide (selected = clicked) then s
            else
              let s :=
                if bool_decide (clicked ∈ Node.connections (heap s selected))
                then s
                else link selected clicked s in
              with_selected_node None s
        end
      else with_dragging_node (Some clicked) s
  | None => s
  end.

(** [on_canvas_click] *)
Definition on_canvas_click (x y : Z) (s : t) : t :=
  click (get_node_at s x y) s.


(** [random.choice(l)] with the draw [i]. *)
Definition choice {A : Type} (l : list A) (i : nat) : outcome A :=
  match l !! (i mod length l) with
  | Some a => Returns a
  | None => Raises IndexError
  end.

(** [int(total_latency)] *)
Definition int_of_distance (d : Router.distance) : outcome Z :=
  match d with
  | Router.Finite z => Returns z
  | Router.Infinity => Raises OverflowError
  end.

(** The answers of the random module and the clock during one call of
    [start_packet_generation]: the two draws of [random.choice], the
    successive values of [random.random()], and the readings of
    [time.time()] in [Packet.__init__], in [track_performance] (twice) and
    in [check_timeouts]. *)
Record Draws : Type := {
  pick_source : nat;
  pick_destination : nat;
  random : nat -> Q;
  packet_time : Py.num;
  track_time : Py.num;
  history_time : Py.num;
  check_time : Py.num
}.

(** A canvas to click on: a router added at (100, 100), a PC at
    (300, 300), and the connection mode switched on. *)
Definition canvas_example : t :=
  toggle_connection_mode
    (add_node Node.pc
       {| draw_x := 300; draw_y := 300; draw_latency := 10;
          draw_throughput := 200; draw_now := Py.Float 0 |}
       (add_node Node.router
          {| draw_x := 100; draw_y := 100; draw_latency := 20;
             draw_throughput := 500; draw_now := Py.Float 0 |}
          (init (Py.Float 0)))).

(** The same canvas once the router and the PC are connected, as
    [toggle_simulation] finds it when it makes the first call of
    [start_packet_generation]. *)
Definition running_example : t :=
  with_simulation_running true
    (on_canvas_click 300 300 (on_canvas_click 100 100 canvas_example)).

(** Answers for one call: the first node as source, the first of the
    others as destination, [random.random()] giving 1/2 each time, and the
    clock reading 1, 2, 3 and 4. *)
Definition example_draws : Draws :=
  {| pick_source := 0;
     pick_destination := 0;
     random := fun _ => 1 # 2;
     packet_time := Py.Float 1;
     track_time := Py.Float 2;
     history_time := Py.Float 3;
     check_time := Py.Float 4 |}.

(** *** What the engine keeps *)

(** [frame s s']: what the engine reads besides the node objects is in
    [s'] as it was in [s]. *)
Record frame (s s' : t) : Prop := {
  frame_allocated : allocated s' = allocated s;
  frame_nodes : nodes s' = nodes s;
  frame_simulation_running : simulation_running s' = simulation_running s;
  frame_latency_history : latency_history s' = latency_history s;
  frame_throughput_history : throughput_history s' = throughput_history s;
  frame_time_stamps : time_stamps s' = time_stamps s;
  frame_performance_start_time : performance_start_time s' = performance_start_time s;
  frame_traffic_load : traffic_load s' = traffic_load s;
  frame_packet_generation_rate : packet_generation_rate s' = packet_generation_rate s;
  frame_congestion_algorithm : congestion_algorithm s' = congestion_algorithm s;
  frame_routing_stats : routing_stats s' = routing_stats s
}.

(** The congestion of a node is between 0 and 10; so for all nodes. *)
Definition congestion_ok (r : Node.t) : Prop :=
  (0 <= Py.val (Node.congestion r))%Q /\ (Py.val (Node.congestion r) <= 10)%Q.

Definition all_ok (s : t) : Prop := forall n, congestion_ok (heap s n).

(** The nodes of [self.nodes] are distinct objects, all created. *)
Record wf (s : t) : Prop := {
  wf_nodup : NoDup (nodes s);
  wf_allocated : forall n, n ∈ nodes s -> n < allocated s
}.

(** [same_topology s s']: the nodes of [s'], their connections and their
    latencies, and the node selected, are those of [s]. *)
Record same_topology (s s' : t) : Prop := {
  same_nodes : nodes s' = nodes s;
  same_allocated : allocated s' = allocated s;
  same_selected_node : selected_node s' = selected_node s;
  same_connections : forall n,
    Node.connections (heap s' n) = Node.connections (heap s n);
  same_latency : forall n, Node.latency (heap s' n) = Node.latency (heap s n)
}.

(** An assignment that touches neither the connections nor the latency
    of a node. *)
Definition keeps_links (f : Node.t -> Node.t) : Prop :=
  forall r, Node.connections (f r) = Node.connections r /\
            Node.latency (f r) = Node.latency r.

(** Connections link nodes of [self.nodes] and go both ways, the node
    selected is one of [self.nodes], and latencies are in the range they
    were drawn from. *)
Record linked_ok (s : t) : Prop := {
  links_inside : forall m n,
    n ∈ Node.connections (heap s m) -> m ∈ nodes s /\ n ∈ nodes s;
  links_both_ways : forall m n,
    n ∈ Node.connections (heap s m) -> m ∈ Node.connections (heap s n);
  selected_inside : forall a, selected_node s = Some a -> a ∈ nodes s;
  latency_inside : forall n, n ∈ nodes s -> (5 <= Node.latency (heap s n) <= 50)%Z
}.

Section Engine.
Context `{Rounding}.

(** [track_performance] *)
Definition track_performance (latency : Router.distance) (hops : Z)
    (now1 now2 : Py.num) (s : t) : t :=
  let current_time := Py.sub now1 (performance_start_time s) in
  let s := with_time_stamps (time_stamps s ++ [current_time]) s in
  let s := with_latency_history (latency_history s ++ [latency]) s in
  let throughput :=
    if (1 <? length (time_stamps s))%nat then
      let time_diff :=
        Py.sub (default (Py.Int 0) (reverse (time_stamps s) !! 0%nat))
               (default (Py.Int 0) (reverse (time_stamps s) !! 1%nat)) in
      if Py.gtb time_diff (Py.Int 0) then
        Py.truediv (Py.mul (Py.Int 1500) (Py.Int 8))
                   (Py.mul time_diff (Py.Int 1000000))
      else default (Py.Int 0) (last (throughput_history s))
    else Py.Int 0 in
  let s := with_throughput_history (throughput_history s ++ [throughput]) s in
  let stats := routing_stats s in
  let total := (total_packets stats + 1)%Z in
  let hop_count := (hops - 1)%Z in
  let min_hops :=
    if Router.dist_ltb (Router.Finite hop_count) (min_hops stats)
    then Router.Finite hop_count else min_hops stats in
  let max_hops :=
    if (max_hops stats <? hop_count)%Z then hop_count else max_hops stats in
  let total_hops :=
    Py.add (Py.mul (avg_hop_count stats) (Py.Int (total - 1))) (Py.Int hop_count) in
  let avg := Py.truediv total_hops (Py.Int total) in
  let history :=
    path_history stats ++
    [{| hops := hop_count;
        latency := latency;
        time := Py.sub now2 (performance_start_time s) |}] in
  let history := if (100 <? length history)%nat then tail history else history in
  let s :=
    with_routing_stats
      {| total_packets := total;
         avg_hop_count := avg;
         min_hops := min_hops;
         max_hops := max_hops;
         path_history := history |} s in
  if (50 <? length (time_stamps s))%nat then
    with_throughput_history (tail (throughput_history s))
      (with_latency_history (tail (latency_history s))
         (with_time_stamps (tail (time_stamps s)) s))
  else s.

(** The body of the loop of [check_timeouts] when the node timed out. *)
Definition time_out (current_time : Py.num) (r : Node.t) : Node.t :=
  let r := Node.with_control TCP.on_timeout r in
  let r := Node.set_packets_in_flight 0 r in
  let r := Node.set_last_ack_time current_time r in
  Node.set_congestion (Py.min (Py.Int 10) (Py.add (Node.congestion r) (Py.Int 2))) r.

Definition check_node (current_time : Py.num) (r : Node.t) : Node.t :=
  match Node.tcp_control r with
  | Some _ =>
      if (0 <? Node.packets_in_flight r)%Z then
        if Py.gtb (Py.sub current_time (Node.last_ack_time r)) (Node.timeout_threshold r)
        then time_out current_time r
        else r
      else r
  | None => r
  end.

(** [check_timeouts] *)
Definition check_timeouts (current_time : Py.num) (s : t) : t :=
  update_all (nodes s) (check_node current_time) s.

(** [handle_packet_ack] *)
Definition handle_packet_ack (source : node) (path : list node) (now : Py.num)
    (s : t) : t :=
  match Node.tcp_control (heap s source) with
  | Some _ =>
      let s := update source (Node.with_control TCP.on_ack_received) s in
      let s := update source (fun r =>
                 Node.set_packets_in_flight (Z.max 0 (Node.packets_in_flight r - 1)) r) s in
      let s := update source (Node.set_last_ack_time now) s in
      update_all path (fun r =>
        Node.set_congestion
          (Py.max (Py.Int 0) (Py.sub (Node.congestion r) (Py.lit (2 # 10)))) r) s
  | None => s
  end.

Definition decay_node (load : TrafficLoad) (r : Node.t) : Node.t :=
  if Py.gtb (Node.congestion r) (Py.Int 0) then
    let decay_rate :=
      match load with
      | heavy => Py.lit (1 # 10)
      | _ => Py.lit (2 # 10)
      end in
    Node.set_congestion (Py.max (Py.Int 0) (Py.sub (Node.congestion r) decay_rate)) r
  else r.

(** [decay_congestion] *)
Definition decay_congestion (s : t) : t :=
  if simulation_running s then
    let s := update_all (nodes s) (decay_node (traffic_load s)) s in
    with_timers (timers s ++ [(500%Z, call_decay_congestion)]) s
  else s.

(** The loop that samples a loss on each node of the path in turn; [k]
    counts the calls of [random.random()]. *)
Fixpoint sample_loss (rand : nat -> Q) (k : nat) (path : list node) (s : t)
    : bool * t :=
  match path with
  | [] => (false, s)
  | n :: rest =>
      let s := update n (fun r =>
                 Node.set_packet_loss_probability
                   (Py.min (Py.lit (3 # 10))
                           (Py.mul (Node.congestion r) (Py.lit (3 # 100)))) r) s in
      if Py.ltb (Py.Float (rand k)) (Node.packet_loss_probability (heap s n))
      then (true, s)
      else sample_loss rand (S k) rest s
  end.

(** The branch [if packet_loss:] *)
Definition on_loss (source : node) (path : list node) (s : t) : t :=
  let s := update source (Node.with_control TCP.on_duplicate_ack) s in
  let congestion_factor :=
    match TCP.state <$> Node.tcp_control (heap s source) with
    | Some TCP.slow_start => Py.lit (5 # 10)
    | Some TCP.fast_recovery => Py.lit (15 # 10)
    | _ => Py.Float 1
    end in
  update_all path (fun r =>
    Node.set_congestion
      (Py.min (Py.Int 10)
         (Py.add (Node.congestion r) (Py.mul congestion_factor (Py.lit (5 # 10))))) r) s.

(** The window of the node's controller, as the send branch reads it;
    the branch is entered with a controller in place. *)
Definition window (s : t) (n : node) : Z :=
  match Node.tcp_control (heap s n) with
  | Some c => TCP.get_window_size c
  | None => 1
  end.

(** The branch [else:] that sends the packet. *)
Definition on_send (d : Draws) (source destination : node) (path : list node)
    (total_latency : Router.distance) (s : t) : outcome t :=
  let packet :=
    {| Packet.source := source;
       Packet.destination := destination;
       Packet.path := path;
       Packet.current_index := 0;
       Packet.progress := Py.Int 0;
       Packet.hop_count := Z.of_nat (length path) - 1;
       Packet.total_latency := total_latency;
       Packet.timestamp := packet_time d;
       Packet.completed := false;
       Packet.cwnd := window s source;
       Packet.algorithm :=
         match Node.tcp_control (heap s source) with
         | Some c => TCP.algorithm c
         | None => congestion_algorithm s
         end |} in
  let s := with_packets (packets s ++ [packet]) s in
  let s := update source (fun r =>
             Node.set_packets_in_flight (Node.packets_in_flight r + 1) r) s in
  let s := update source (Node.with_control (fun c =>
             TCP.set_packets_sent (TCP.packets_sent c + 1) c)) s in
  let* delay := int_of_distance total_latency in
  let s := with_timers (timers s ++ [(delay, call_handle_packet_ack source path)]) s in
  let congestion_factor :=
    Py.truediv (Py.Float 1) (Py.Int (Z.max 1 (window s source))) in
  let congestion_factor :=
    match traffic_load s with
    | light => Py.mul congestion_factor (Py.lit (5 # 10))
    | heavy => Py.mul congestion_factor (Py.Int 2)
    | medium => congestion_factor
    end in
  Returns (update_all path (fun r =>
    Node.set_congestion
      (Py.min (Py.Int 10) (Py.add (Node.congestion r) congestion_factor)) r) s).

(** The part of [start_packet_generation] under [if path:]. *)
Definition attempt (d : Draws) (source destination : node) (path : list node)
    (total_latency : Router.distance) (s : t) : outcome t :=
  let '(packet_loss, s) := sample_loss (random d) 0 path s in
  let* s :=
    if packet_loss then Returns (on_loss source path s)
    else on_send d source destination path total_latency s in
  Returns (track_performance total_latency (Z.of_nat (length path))
             (track_time d) (history_time d) s).

(** The end of [start_packet_generation]: the timeouts are checked and
    the next call is scheduled. *)
Definition finish (d : Draws) (s : t) : t :=
  let s := check_timeouts (check_time d) s in
  with_timers
    (timers s ++ [(packet_generation_rate s, call_start_packet_generation)]) s.

(** [start_packet_generation] *)
Definition start_packet_generation (d : Draws) (s : t) : outcome t :=
  if simulation_running s && (1 <? length (nodes s))%nat then
    let* source := choice (nodes s) (pick_source d) in
    let* destination :=
      choice (filter (fun n => n ≠ source) (nodes s)) (pick_destination d) in
    let* s :=
      match Node.tcp_control (heap s source) with
      | Some c =>
          if (Node.packets_in_flight (heap s source) <? TCP.get_window_size c)%Z then
            let* found := Router.dijkstra_shortest_path (topology s) source destination in
            match found.1 with
            | Some (n :: rest) => attempt d source destination (n :: rest) found.2 s
            | _ => Returns s
            end
          else Returns s
      | None => Returns s
      end in
    Returns (finish d s)
  else Returns s.

(** [toggle_simulation] *)
Definition toggle_simulation (d : Draws) (s : t) : outcome t :=
  let s := with_simulation_running (negb (simulation_running s)) s in
  if simulation_running s then
    let* s := start_packet_generation d s in
    Returns (decay_congestion s)
  else Returns s.

(** What can happen to the simulator: a command of the user, or a call
    that was pending in [self.root.after]. *)
Inductive action : Type :=
| AddNode (node_type : Node.NodeType) (d : NodeDraws)
| ToggleConnectionMode
| CanvasClick (x y : Z)
| SetTrafficLoad (load_level : TrafficLoad)
| SetCongestionAlgorithm (algorithm : TCP.Algorithm)
| ToggleSimulation (d : Draws)
| StartPacketGeneration (d : Draws)
| HandlePacketAck (source : node) (path : list node) (now : Py.num)
| DecayCongestion.

Definition step (s : t) (a : action) : outcome t :=
  match a with
  | AddNode node_type d => Returns (add_node node_type d s)
  | ToggleConnectionMode => Returns (toggle_connection_mode s)
  | CanvasClick x y => Returns (on_canvas_click x y s)
  | SetTrafficLoad load_level => Returns (set_traffic_load load_level s)
  | SetCongestionAlgorithm algorithm => Returns (set_congestion_algorithm algorithm s)
  | ToggleSimulation d => toggle_simulation d s
  | StartPacketGeneration d => start_packet_generation d s
  | HandlePacketAck source path now => Returns (handle_packet_ack source path now s)
  | DecayCongestion => Returns (decay_congestion s)
  end.

Fixpoint run (s : t) (actions : list action) : outcome t :=
  match actions with
  | [] => Returns s
  | a :: rest => let* s' := step s a in run s' rest
  end.

End Engine.

(** The latency drawn for a new node is what [random.randint(5, 50)]
    gives. *)
Definition latency_drawn (a : action) : Prop :=
  match a with
  | AddNode _ d => (5 <= draw_latency d <= 50)%Z
  | _ => True
  end.

End Sim.

(** * Theorems *)

(** ** Python numbers *)

Module PyFacts.
Import Py.

Section Rounding.
Context `{RoundingOk}.

Lemma fl_proper (x y : Q) : (x == y)%Q -> (fl x == fl y)%Q.
Proof.
  intros E. apply Qle_antisym; apply fl_mono; rewrite E; apply Qle_refl.
Qed.

Lemma fl_int (n : Z) (x : Q) :
  (Z.abs n <= 2 ^ 53)%Z -> (x == inject_Z n)%Q -> (fl x == inject_Z n)%Q.
Proof.
  intros Hn E. rewrite (fl_proper _ _ E). now apply fl_exact.
Qed.

Lemma fl_lower (n : Z) (x : Q) :
  (Z.abs n <= 2 ^ 53)%Z -> (inject_Z n <= x)%Q -> (inject_Z n <= fl x)%Q.
Proof.
  intros Hn Hx. rewrite <- (fl_exact n Hn). now apply fl_mono.
Qed.

Lemma fl_upper (n : Z) (x : Q) :
  (Z.abs n <= 2 ^ 53)%Z -> (x <= inject_Z n)%Q -> (fl x <= inject_Z n)%Q.
Proof.
  intros Hn Hx. rewrite <- (fl_exact n Hn). now apply fl_mono.
Qed.

Lemma to_float_lower (n : Z) (a : num) :
  (Z.abs n <= 2 ^ 53)%Z -> (inject_Z n <= val a)%Q -> (inject_Z n <= to_float a)%Q.
Proof.
  destruct a as [z|q]; simpl; intros Hn Ha; [|exact Ha].
  now apply fl_lower.
Qed.

Lemma to_float_upper (n : Z) (a : num) :
  (Z.abs n <= 2 ^ 53)%Z -> (val a <= inject_Z n)%Q -> (to_float a <= inject_Z n)%Q.
Proof.
  destruct a as [z|q]; simpl; intros Hn Ha; [|exact Ha].
  now apply fl_upper.
Qed.

Lemma to_float_int (n : Z) (a : num) :
  (Z.abs n <= 2 ^ 53)%Z -> (val a == inject_Z n)%Q -> (to_float a == inject_Z n)%Q.
Proof.
  destruct a as [z|q]; simpl; intros Hn Ha; [|exact Ha].
  now apply fl_int.
Qed.

(** A sum is at least the sum of lower bounds of its terms. *)
Lemma add_lower (j k : Z) (a b : num) :
  (Z.abs j <= 2 ^ 53)%Z -> (Z.abs k <= 2 ^ 53)%Z -> (Z.abs (j + k) <= 2 ^ 53)%Z ->
  (inject_Z j <= val a)%Q -> (inject_Z k <= val b)%Q ->
  (inject_Z (j + k) <= val (add a b))%Q.
Proof.
  intros Hj Hk Hjk Ha Hb.
  assert (Hsum : (inject_Z (j + k) <= to_float a + to_float b)%Q).
  { rewrite inject_Z_plus.
    pose proof (to_float_lower j a Hj Ha). pose proof (to_float_lower k b Hk Hb). lra. }
  destruct a as [x|x], b as [y|y]; cbn [add val];
    try (apply fl_lower; [exact Hjk|exact Hsum]).
  simpl in Ha, Hb. rewrite <- Zle_Qle in *. lia.
Qed.

(** A sum is at most the sum of upper bounds of its terms. *)
Lemma add_upper (j k : Z) (a b : num) :
  (Z.abs j <= 2 ^ 53)%Z -> (Z.abs k <= 2 ^ 53)%Z -> (Z.abs (j + k) <= 2 ^ 53)%Z ->
  (val a <= inject_Z j)%Q -> (val b <= inject_Z k)%Q ->
  (val (add a b) <= inject_Z (j + k))%Q.
Proof.
  intros Hj Hk Hjk Ha Hb.
  assert (Hsum : (to_float a + to_float b <= inject_Z (j + k))%Q).
  { rewrite inject_Z_plus.
    pose proof (to_float_upper j a Hj Ha). pose proof (to_float_upper k b Hk Hb). lra. }
  destruct a as [x|x], b as [y|y]; cbn [add val];
    try (apply fl_upper; [exact Hjk|exact Hsum]).
  simpl in Ha, Hb. rewrite <- Zle_Qle in *. lia.
Qed.

Lemma add_int (j k : Z) (a b : num) :
  (Z.abs j <= 2 ^ 53)%Z -> (Z.abs k <= 2 ^ 53)%Z -> (Z.abs (j + k) <= 2 ^ 53)%Z ->
  (val a == inject_Z j)%Q -> (val b == inject_Z k)%Q ->
  (val (add a b) == inject_Z (j + k))%Q.
Proof.
  intros Hj Hk Hjk Ha Hb. apply Qle_antisym.
  - apply add_upper; auto; [rewrite Ha|rewrite Hb]; apply Qle_refl.
  - apply add_lower; auto; [rewrite Ha|rewrite Hb]; apply Qle_refl.
Qed.

(** A quotient of two numbers that are not negative is not negative. *)
Lemma truediv_nonneg (a b : num) :
  (0 <= val a)%Q -> (0 <= val b)%Q -> (0 <= val (truediv a b))%Q.
Proof.
  intros Ha Hb. cbn [truediv val].
  apply (fl_lower 0); [simpl; lia|].
  pose proof (to_float_lower 0 a ltac:(simpl; lia) Ha) as Ha'.
  pose proof (to_float_lower 0 b ltac:(simpl; lia) Hb) as Hb'.
  change (inject_Z 0) with 0%Q in *.
  unfold Qdiv. apply Qmult_le_0_compat; [exact Ha'|].
  now apply Qinv_le_0_compat.
Qed.

End Rounding.

Lemma ltb_lt (a b : num) : ltb a b = true <-> (val a < val b)%Q.
Proof.
  unfold ltb. rewrite negb_true_iff. split.
  - intros E. apply Qnot_le_lt. intros Hle. apply Qle_bool_iff in Hle. congruence.
  - intros Hlt. destruct (Qle_bool (val b) (val a)) eqn:E; [|reflexivity].
    apply Qle_bool_iff in E. lra.
Qed.

Lemma ltb_ge (a b : num) : ltb a b = false <-> (val b <= val a)%Q.
Proof.
  unfold ltb. rewrite negb_false_iff. apply Qle_bool_iff.
Qed.

Lemma max_spec (a b : num) :
  ((val a < val b)%Q /\ max a b = b) \/ ((val b <= val a)%Q /\ max a b = a).
Proof.
  unfold max. destruct (ltb a b) eqn:E.
  - left. split; [now apply ltb_lt|reflexivity].
  - right. split; [now apply ltb_ge|reflexivity].
Qed.

Lemma min_spec (a b : num) :
  ((val b < val a)%Q /\ min a b = b) \/ ((val a <= val b)%Q /\ min a b = a).
Proof.
  unfold min. destruct (ltb b a) eqn:E.
  - left. split; [now apply ltb_lt|reflexivity].
  - right. split; [now apply ltb_ge|reflexivity].
Qed.

Lemma max_lower_r (a b : num) : (val b <= val (max a b))%Q.
Proof. destruct (max_spec a b) as [[? ->]|[? ->]]; lra. Qed.

Lemma max_lower_l (a b : num) : (val a <= val (max a b))%Q.
Proof. destruct (max_spec a b) as [[? ->]|[? ->]]; lra. Qed.

Lemma min_upper_l (a b : num) : (val (min a b) <= val a)%Q.
Proof. destruct (min_spec a b) as [[? ->]|[? ->]]; lra. Qed.

Lemma min_upper_r (a b : num) : (val (min a b) <= val b)%Q.
Proof. destruct (min_spec a b) as [[? ->]|[? ->]]; lra. Qed.

(** [int] of a number below 1 is at most 0; from 1 on it is the floor. *)
Lemma int_small (a : num) : (val a < 1)%Q -> (int a <= 0)%Z.
Proof.
  destruct a as [z|[n d]]; simpl.
  - intros Hz. change 1%Q with (inject_Z 1) in Hz. rewrite <- Zlt_Qlt in Hz. lia.
  - unfold Qlt. simpl. intros Hn.
    destruct (Z_lt_le_dec n 0) as [Hneg|Hpos].
    + rewrite <- (Z.opp_involutive n), Z.quot_opp_l by lia.
      pose proof (Z.quot_pos (- n) (Z.pos d)). lia.
    + rewrite Z.quot_small; lia.
Qed.

Lemma int_floor (a : num) : (0 <= val a)%Q -> int a = Qfloor (val a).
Proof.
  destruct a as [z|[n d]]; simpl.
  - now rewrite Z.div_1_r.
  - unfold Qle. simpl. intros Hn. apply Z.quot_div_nonneg; lia.
Qed.

End PyFacts.

(** ** TCP congestion control *)

Module TCPFacts.
Import Py PyFacts TCP.

Lemma ok_init (a : Algorithm) : ok (init a).
Proof. split; simpl; unfold Qle; simpl; lia. Qed.

Section Rounding.
Context `{RoundingOk}.

Local Ltac small := simpl; lia.
Local Ltac qconst := cbn [val] in *; unfold inject_Z in *; lra.

Lemma grow (a b : num) :
  (1 <= val a)%Q -> (0 <= val b)%Q -> (1 <= val (add a b))%Q.
Proof.
  intros Ha Hb. apply (add_lower 1 0); try small; assumption.
Qed.

Local Ltac fields := split; cbn -[add truediv max].

Lemma ok_on_timeout (c : t) : ok (on_timeout c).
Proof.
  fields.
  - unfold Qle; simpl; lia.
  - apply (max_lower_r _ (Int 2)).
Qed.

Lemma ok_tahoe_on_ack_received (c : t) : ok c -> ok (tahoe_on_ack_received c).
Proof.
  intros [Hc Hs]. unfold tahoe_on_ack_received. cbn -[add truediv].
  destruct (state c).
  - match goal with |- ok (if ?b then _ else _) => destruct b end;
      (fields; [apply grow; [exact Hc|qconst]|exact Hs]).
  - fields; [|exact Hs].
    apply grow; [exact Hc|]. apply truediv_nonneg; qconst.
  - fields; assumption.
Qed.

Lemma ok_tahoe_on_duplicate_ack (c : t) : ok c -> ok (tahoe_on_duplicate_ack c).
Proof.
  intros Hok. unfold tahoe_on_duplicate_ack. cbn -[on_timeout].
  destruct (3 <=? duplicate_acks c + 1)%Z; [apply ok_on_timeout|exact Hok].
Qed.

Lemma ok_reno_on_ack_received (c : t) : ok c -> ok (reno_on_ack_received c).
Proof.
  intros [Hc Hs]. unfold reno_on_ack_received. cbn -[add truediv].
  destruct (state c).
  - match goal with |- ok (if ?b then _ else _) => destruct b end;
      (fields; [apply grow; [exact Hc|qconst]|exact Hs]).
  - fields; [|exact Hs].
    apply grow; [exact Hc|]. apply truediv_nonneg; qconst.
  - fields; qconst.
Qed.

Lemma ok_reno_on_duplicate_ack (c : t) : ok c -> ok (reno_on_duplicate_ack c).
Proof.
  intros [Hc Hs]. unfold reno_on_duplicate_ack. cbn -[add truediv max].
  destruct (duplicate_acks c + 1 =? 3)%Z.
  - pose proof (max_lower_r (truediv (cwnd c) (Int 2)) (Int 2)) as Hm.
    fields; [|exact Hm].
    apply grow; qconst.
  - destruct (state c); fields; try assumption.
    apply grow; [exact Hc|qconst].
Qed.

Lemma ok_step (c : t) (e : event) : ok c -> ok (step c e).
Proof.
  intros Hok. destruct e; unfold step, on_ack_received, on_duplicate_ack.
  - destruct (algorithm c);
      [now apply ok_tahoe_on_ack_received|now apply ok_reno_on_ack_received].
  - destruct (algorithm c);
      [now apply ok_tahoe_on_duplicate_ack|now apply ok_reno_on_duplicate_ack].
  - apply ok_on_timeout.
Qed.

Lemma run_ok (es : list event) (c : t) : ok c -> ok (run c es).
Proof.
  revert c. induction es as [|e es IH]; intros c Hok; [exact Hok|].
  apply IH, ok_step, Hok.
Qed.

(** Where [1.0 / self.cwnd] is computed the divisor is not zero. *)
Lemma divisor_positive (a : Algorithm) (es : list event) :
  (0 < val (cwnd (run (init a) es)))%Q.
Proof.
  destruct (run_ok es (init a) (ok_init a)) as [Hc _]. lra.
Qed.

(** C4: for both TCPTahoe and TCPReno, after every finite sequence of
    ACK, duplicate-ACK and timeout events from the initial state (cwnd 1,
    ssthresh 64, slow start, no duplicate ACKs), cwnd is at least 1 and
    ssthresh is at least 2. *)
Theorem cwnd_ssthresh_invariant (a : Algorithm) (es : list event) :
  init a = {| cwnd := Int 1; ssthresh := Int 64; state := slow_start;
              duplicate_acks := 0; packets_sent := 0; packets_acked := 0;
              algorithm := a |} /\
  (1 <= val (cwnd (run (init a) es)))%Q /\
  (2 <= val (ssthresh (run (init a) es)))%Q.
Proof.
  split; [reflexivity|]. exact (run_ok es (init a) (ok_init a)).
Qed.

(** C6: a Reno controller in slow start or congestion avoidance with
    cwnd 20, ssthresh 2 and no duplicate ACKs counted is, after exactly
    three duplicate ACKs, in fast recovery with cwnd 13 and ssthresh 10. *)
Theorem reno_three_duplicate_acks (c : t) :
  algorithm c = Reno ->
  state c = slow_start \/ state c = congestion_avoidance ->
  (val (cwnd c) == 20)%Q ->
  (val (ssthresh c) == 2)%Q ->
  duplicate_acks c = 0%Z ->
  let c' := run c [DuplicateAck; DuplicateAck; DuplicateAck] in
  state c' = fast_recovery /\
  (val (cwnd c') == 13)%Q /\
  (val (ssthresh c') == 10)%Q.
Proof.
  intros Ha Hst Hc Hs Hd. destruct c as [cw ss st d ps pa al].
  cbn in Ha, Hst, Hc, Hs, Hd. subst al d.
  assert (Hhalf : (val (truediv cw (Int 2)) == inject_Z 10)%Q).
  { cbn [truediv val]. apply fl_int; [small|].
    rewrite (to_float_int 20 cw ltac:(small) Hc).
    rewrite (to_float_int 2 (Int 2) ltac:(small) ltac:(reflexivity)).
    reflexivity. }
  assert (Hmax : (val (max (truediv cw (Int 2)) (Int 2)) == inject_Z 10)%Q).
  { destruct (max_spec (truediv cw (Int 2)) (Int 2)) as [[Hlt _]|[_ ->]];
      [|exact Hhalf].
    rewrite Hhalf in Hlt. exfalso. revert Hlt. cbn. unfold Qlt. simpl. lia. }
  assert (Hsum : (val (add (max (truediv cw (Int 2)) (Int 2)) (Int 3)) == inject_Z 13)%Q).
  { apply (add_int 10 3); try small; [exact Hmax|reflexivity]. }
  destruct Hst as [-> | ->]; cbn -[add truediv max];
    (split; [reflexivity|split; [exact Hsum|exact Hmax]]).
Qed.

End Rounding.

(** C5: for every congestion-control state, whatever the value of cwnd
    (so in every reachable state too), get_window_size returns an integer
    that is at least 1 and equals floor(max(1, cwnd)). *)
Theorem get_window_size_floor (c : t) :
  (1 <= get_window_size c)%Z /\
  get_window_size c = Qfloor (Qmax 1 (val (cwnd c))).
Proof.
  unfold get_window_size. split; [lia|].
  destruct (Qlt_le_dec (val (cwnd c)) 1) as [Hlt|Hge].
  - pose proof (int_small _ Hlt) as Hi.
    rewrite (Qfloor_comp (Qmax 1 (val (cwnd c))) 1).
    + change (Qfloor 1) with 1%Z. lia.
    + apply Q.max_l. lra.
  - rewrite (Qfloor_comp (Qmax 1 (val (cwnd c))) (val (cwnd c))).
    + rewrite int_floor by lra.
      assert (1 <= Qfloor (val (cwnd c)))%Z; [|lia].
      change 1%Z with (Qfloor 1). now apply Qfloor_resp_le.
    + now apply Q.max_r.
Qed.

(** Exact arithmetic obeys the laws asked of rounding. *)
Lemma exact_rounding_ok : @RoundingOk exact_rounding.
Proof.
  split.
  - intros x y Hxy. exact Hxy.
  - intros n _. apply Qeq_refl.
Qed.

Lemma cwnd_ssthresh_invariant_witness :
  @RoundingOk exact_rounding /\
  (1 <= val (cwnd (@run exact_rounding (init Reno)
                     [Ack; Ack; DuplicateAck; DuplicateAck; DuplicateAck; Timeout])))%Q.
Proof.
  split; [exact exact_rounding_ok|].
  apply (@cwnd_ssthresh_invariant exact_rounding exact_rounding_ok Reno).
Defined.

Lemma reno_three_duplicate_acks_witness :
  state (@run exact_rounding
           {| cwnd := Int 20; ssthresh := Int 2; state := congestion_avoidance;
              duplicate_acks := 0; packets_sent := 0; packets_acked := 0;
              algorithm := Reno |}
           [DuplicateAck; DuplicateAck; DuplicateAck]) = fast_recovery.
Proof.
  apply (@reno_three_duplicate_acks exact_rounding exact_rounding_ok
           {| cwnd := Int 20; ssthresh := Int 2; state := congestion_avoidance;
              duplicate_acks := 0; packets_sent := 0; packets_acked := 0;
              algorithm := Reno |});
    [reflexivity|right; reflexivity|reflexivity|reflexivity|reflexivity].
Defined.

End TCPFacts.

(** ** The router *)

Module RouterFacts.
Import Router.

(** *** Outcomes *)

Lemma getitem_Some {V : Type} (d : gmap node V) (k : node) (v : V) :
  d !! k = Some v -> getitem d k = Returns v.
Proof. unfold getitem. now intros ->. Qed.

(** *** Distances *)

Lemma dist_ltb_irrefl (a : distance) : dist_ltb a a = false.
Proof. destruct a; simpl; [apply Z.ltb_irrefl|reflexivity]. Qed.

Lemma dist_le_refl (a : distance) : dist_le a a.
Proof. apply dist_ltb_irrefl. Qed.

Lemma dist_le_trans (a b c : distance) : dist_le a b -> dist_le b c -> dist_le a c.
Proof.
  unfold dist_le. destruct a, b, c; simpl; try congruence.
  rewrite !Z.ltb_ge. lia.
Qed.

Lemma dist_ltb_le (a b : distance) : dist_ltb a b = true -> dist_le a b.
Proof.
  unfold dist_le. destruct a, b; simpl; try congruence.
  rewrite Z.ltb_lt, Z.ltb_ge. lia.
Qed.

Lemma dist_le_total (a b : distance) : dist_ltb a b = false -> dist_le b a.
Proof. trivial. Qed.

Lemma dist_le_finite (x y : Z) : dist_le (Finite x) (Finite y) <-> (x <= y)%Z.
Proof. unfold dist_le. simpl. apply Z.ltb_ge. Qed.

Lemma dist_le_infinity (a : distance) : dist_le a Infinity.
Proof. reflexivity. Qed.

Lemma dist_le_infinity_l (a : distance) : dist_le Infinity a -> a = Infinity.
Proof. unfold dist_le. destruct a; simpl; congruence. Qed.

(** *** Paths *)

Section Paths.
Context (G : Topology).

Lemma is_path_last (a b : node) (p : list node) :
  is_path G a b p -> exists q, p = q ++ [b].
Proof.
  destruct 1 as [|m n p _ _]; [now exists []|now exists p].
Qed.

Lemma is_path_head (a b : node) (p : list node) :
  is_path G a b p -> exists q, p = a :: q.
Proof.
  induction 1 as [|m n p _ [q ->] _]; [now exists []|now exists (q ++ [n])].
Qed.

Lemma path_cost_snoc (q : list node) (m n : node) :
  path_cost G ((q ++ [m]) ++ [n]) = (path_cost G (q ++ [m]) + latency G m)%Z.
Proof.
  induction q as [|x q IH]; [simpl; lia|].
  change (path_cost G (x :: ((q ++ [m]) ++ [n]))
          = (path_cost G (x :: (q ++ [m])) + latency G m)%Z).
  cbn [path_cost]. rewrite IH.
  destruct q; simpl; lia.
Qed.

Lemma path_cost_step (a m n : node) (p : list node) :
  is_path G a m p -> path_cost G (p ++ [n]) = (path_cost G p + latency G m)%Z.
Proof.
  intros Hp. destruct (is_path_last _ _ _ Hp) as [q ->]. apply path_cost_snoc.
Qed.

(** A walk from a node of the list never leaves it when links are closed. *)
Lemma is_path_nodes (a b : node) (p : list node) :
  wf_links G -> a ∈ nodes G -> is_path G a b p -> b ∈ nodes G.
Proof.
  intros [Hc] Ha. induction 1 as [|m n p _ IH Hl]; [exact Ha|].
  exact (Hc m n IH Hl).
Qed.

Lemma is_path_elements (a b : node) (p : list node) :
  wf_links G -> a ∈ nodes G -> is_path G a b p -> forall x, x ∈ p -> x ∈ nodes G.
Proof.
  intros Hwf Ha. induction 1 as [|m n p Hp IH Hl]; intros x Hx.
  - apply list_elem_of_singleton in Hx. now subst.
  - apply elem_of_app in Hx as [Hx|Hx]; [now apply IH|].
    apply list_elem_of_singleton in Hx. subst x.
    eapply is_path_nodes; [exact Hwf|exact Ha|].
    econstructor; eassumption.
Qed.

Lemma consecutive_snoc (q : list node) (m n : node) :
  consecutive G (q ++ [m]) -> linked G m n -> consecutive G ((q ++ [m]) ++ [n]).
Proof.
  intros Hq Hl i x y Hx Hy.
  apply lookup_snoc_Some in Hy as [[Hlt Hy]|[Hi ->]].
  - apply lookup_snoc_Some in Hx as [[_ Hx]|[Hi _]]; [exact (Hq i x y Hx Hy)|lia].
  - rewrite length_app in Hi. cbn [length] in Hi.
    rewrite lookup_app_l in Hx by (rewrite length_app; cbn [length]; lia).
    rewrite (list_lookup_middle q [] m i) in Hx by lia.
    injection Hx as <-. exact Hl.
Qed.

Lemma consecutive_init (q : list node) (n : node) :
  consecutive G (q ++ [n]) -> consecutive G q.
Proof.
  intros Hq i x y Hx Hy.
  apply (Hq i x y); now apply lookup_app_l_Some.
Qed.

(** The paths built step by step are the lists that start at [a], end at
    [b] and whose consecutive nodes are linked. *)
Lemma is_path_valid (a b : node) (p : list node) :
  is_path G a b p <-> valid_path G a b p.
Proof.
  split.
  - induction 1 as [|m n p Hp (Hh & Hl & Hc) Hlink].
    + repeat split. intros i x y _ Hy. destruct i; discriminate.
    + destruct (is_path_last a m p Hp) as [q ->].
      split; [|split].
      * rewrite head_app, Hh. reflexivity.
      * apply last_snoc.
      * now apply consecutive_snoc.
  - revert b. pattern p. apply rev_ind; clear p.
    + intros b (Hh & _). discriminate.
    + intros x p IH b (Hh & Hl & Hc).
      rewrite last_snoc in Hl. injection Hl as ->.
      destruct (last p) as [m|] eqn:Em.
      * apply last_Some in Em as [p' ->].
        apply (path_step G a m b).
        -- apply IH. split; [|split].
           ++ rewrite head_app in Hh. destruct (head (p' ++ [m])) eqn:E; [exact Hh|].
              apply head_None in E. destruct p'; discriminate.
           ++ apply last_snoc.
           ++ exact (consecutive_init _ _ Hc).
        -- apply (Hc (length p') m b).
           ++ apply lookup_app_l_Some. now apply list_lookup_middle.
           ++ rewrite (list_lookup_middle (p' ++ [m]) [] b); [reflexivity|].
              rewrite length_app. cbn [length]. lia.
      * apply last_None in Em as ->. cbn in Hh. injection Hh as ->. constructor.
Qed.

Lemma reachable_path (a b : node) : reachable G a b <-> exists p, is_path G a b p.
Proof.
  split; intros [p Hp]; exists p; now apply is_path_valid.
Qed.

Lemma reachable_refl (a : node) : reachable G a a.
Proof. apply reachable_path. exists [a]. constructor. Qed.

Lemma reachable_step (a m n : node) : reachable G a m -> linked G m n -> reachable G a n.
Proof.
  rewrite !reachable_path. intros [p Hp] Hl.
  exists (p ++ [n]). now apply (path_step G a m n p).
Qed.

Lemma reachable_trans (a b c : node) :
  reachable G a b -> reachable G b c -> reachable G a c.
Proof.
  intros Hab Hbc. apply reachable_path in Hbc as [q Hq].
  induction Hq as [|m n q _ IH Hl]; [exact Hab|].
  exact (reachable_step a m n IH Hl).
Qed.

(** With links that go both ways, reaching is symmetric: the nodes fall
    into connected components. *)
Lemma reachable_sym (a b : node) :
  symmetric_links G -> reachable G a b -> reachable G b a.
Proof.
  intros Hsym Hab. apply reachable_path in Hab as [p Hp].
  induction Hp as [|m n p _ IH Hl]; [apply reachable_refl|].
  apply (reachable_trans n m a); [|exact IH].
  apply (reachable_step n n m); [apply reachable_refl|exact (Hsym m n Hl)].
Qed.

End Paths.


(** *** The minimum of [unvisited] *)

Lemma min_from_spec (d : gmap node distance) (rest : list node) :
  forall (best : node) (kbest : distance),
  d !! best = Some kbest ->
  (forall n, n ∈ rest -> is_Some (d !! n)) ->
  exists c k, min_from d best kbest rest = Returns (c, k) /\
    c ∈ best :: rest /\ d !! c = Some k /\ dist_le k kbest /\
    forall n kn, n ∈ rest -> d !! n = Some kn -> dist_le k kn.
Proof.
  induction rest as [|x rest IH]; intros best kbest Hbest Hkeys.
  - exists best, kbest. repeat split; [left|exact Hbest|apply dist_le_refl|].
    intros n kn Hn. inversion Hn.
  - destruct (Hkeys x ltac:(left)) as [kx Hx].
    cbn [min_from]. rewrite (getitem_Some _ _ _ Hx). cbn [bind].
    assert (Hrest : forall n, n ∈ rest -> is_Some (d !! n)).
    { intros n Hn. apply Hkeys. now right. }
    destruct (dist_ltb kx kbest) eqn:Hlt.
    + destruct (IH x kx Hx Hrest) as (c & k & -> & Hc & Hk & Hle & Hmin).
      exists c, k. repeat split; [now right|exact Hk| |].
      * eapply dist_le_trans; [exact Hle|now apply dist_ltb_le].
      * intros n kn Hn Hkn. apply elem_of_cons in Hn as [->|Hn].
        -- rewrite Hx in Hkn. now injection Hkn as <-.
        -- now apply (Hmin n).
    + destruct (IH best kbest Hbest Hrest) as (c & k & -> & Hc & Hk & Hle & Hmin).
      exists c, k. repeat split; [|exact Hk|exact Hle|].
      * apply elem_of_cons in Hc as [->|Hc]; [left|right; now right].
      * intros n kn Hn Hkn. apply elem_of_cons in Hn as [->|Hn].
        -- rewrite Hx in Hkn. injection Hkn as <-.
           eapply dist_le_trans; [exact Hle|exact Hlt].
        -- now apply (Hmin n).
Qed.

Lemma min_unvisited_spec (d : gmap node distance) (first : node) (rest : list node) :
  (forall n, n ∈ first :: rest -> is_Some (d !! n)) ->
  exists c k, min_unvisited d first rest = Returns (c, k) /\
    c ∈ first :: rest /\ d !! c = Some k /\
    forall n kn, n ∈ first :: rest -> d !! n = Some kn -> dist_le k kn.
Proof.
  intros Hkeys. destruct (Hkeys first ltac:(left)) as [kf Hf].
  unfold min_unvisited. rewrite (getitem_Some _ _ _ Hf). cbn [bind].
  destruct (min_from_spec d rest first kf Hf) as (c & k & -> & Hc & Hk & Hle & Hmin).
  { intros n Hn. apply Hkeys. now right. }
  exists c, k. repeat split; [exact Hc|exact Hk|].
  intros n kn Hn Hkn. apply elem_of_cons in Hn as [->|Hn].
  - rewrite Hf in Hkn. now injection Hkn as <-.
  - now apply (Hmin n).
Qed.

(** *** Relaxing the neighbours of the current node *)

Lemma bool_decide_cons_ne (b n : node) (ns : list node) :
  b ≠ n -> bool_decide (n ∈ b :: ns) = bool_decide (n ∈ ns).
Proof.
  intros Hne. apply bool_decide_ext. rewrite elem_of_cons.
  split; [intros [E|Hn]; [congruence|exact Hn]|intros Hn; now right].
Qed.

Lemma relax_all_spec (G : Topology) (u : node) (du : distance) (ns : list node) :
  forall st : dstate,
  distances st !! u = Some du ->
  u ∉ unvisited st ->
  (forall n, n ∈ unvisited st -> is_Some (distances st !! n)) ->
  exists st', relax_all G u st ns = Returns st' /\
    unvisited st' = unvisited st /\
    forall n,
      distances st' !! n =
        (if improved st (dist_add du (latency G u)) ns n
         then Some (dist_add du (latency G u)) else distances st !! n) /\
      previous st' !! n =
        (if improved st (dist_add du (latency G u)) ns n
         then Some (Some u) else previous st !! n).
Proof.
  set (alt := dist_add du (latency G u)).
  induction ns as [|b ns IH]; intros st Hu HuU Hkeys.
  - exists st. repeat split; reflexivity.
  - cbn [relax_all]. unfold relax.
    destruct (decide (b ∈ unvisited st)) as [Hb|Hb].
    + rewrite (bool_decide_eq_true_2 _ Hb).
      destruct (Hkeys b Hb) as [db Hdb].
      rewrite (getitem_Some _ _ _ Hu), (getitem_Some _ _ _ Hdb). cbn [bind].
      fold alt. destruct (dist_ltb alt db) eqn:Hlt; cbn [bind].
      * assert (Hne : b ≠ u) by (intros ->; contradiction).
        set (st1 := {| distances := <[b:=alt]> (distances st);
                       previous := <[b:=Some u]> (previous st);
                       unvisited := unvisited st |}).
        destruct (IH st1) as (st' & -> & HU & Hpt).
        { cbn. now rewrite lookup_insert_ne. }
        { exact HuU. }
        { intros n Hn. cbn. destruct (decide (b = n)) as [->|Hbn].
          - rewrite lookup_insert_eq. eauto.
          - rewrite lookup_insert_ne by exact Hbn. now apply Hkeys. }
        exists st'. split; [reflexivity|]. split; [exact HU|].
        intros n. destruct (Hpt n) as [HD HP]. rewrite HD, HP.
        unfold improved. cbn [distances previous unvisited st1].
        destruct (decide (b = n)) as [->|Hbn].
        -- rewrite !lookup_insert_eq, Hdb, Hlt, dist_ltb_irrefl.
           rewrite (bool_decide_eq_true_2 (n ∈ n :: ns)) by left.
           rewrite (bool_decide_eq_true_2 _ Hb).
           rewrite andb_false_r. cbn. split; reflexivity.
        -- rewrite !lookup_insert_ne by exact Hbn.
           rewrite (bool_decide_cons_ne b n ns Hbn). split; reflexivity.
      * destruct (IH st Hu HuU Hkeys) as (st' & -> & HU & Hpt).
        exists st'. split; [reflexivity|]. split; [exact HU|].
        intros n. destruct (Hpt n) as [HD HP]. rewrite HD, HP.
        unfold improved.
        destruct (decide (b = n)) as [->|Hbn].
        -- rewrite Hdb, Hlt, !andb_false_r. split; reflexivity.
        -- rewrite (bool_decide_cons_ne b n ns Hbn). split; reflexivity.
    + rewrite (bool_decide_eq_false_2 _ Hb). cbn [bind].
      destruct (IH st Hu HuU Hkeys) as (st' & -> & HU & Hpt).
      exists st'. split; [reflexivity|]. split; [exact HU|].
      intros n. destruct (Hpt n) as [HD HP]. rewrite HD, HP.
      unfold improved.
      destruct (decide (b = n)) as [->|Hbn].
      * rewrite (bool_decide_eq_false_2 _ Hb), !andb_false_r. cbn. split; reflexivity.
      * rewrite (bool_decide_cons_ne b n ns Hbn). split; reflexivity.
Qed.

Lemma improved_true (st : dstate) (alt : distance) (ns : list node) (n : node) :
  improved st alt ns n = true ->
  n ∈ ns /\ n ∈ unvisited st /\
  exists dn, distances st !! n = Some dn /\ dist_ltb alt dn = true.
Proof.
  unfold improved. rewrite !andb_true_iff, !bool_decide_eq_true.
  intros [[? ?] Hd]. destruct (distances st !! n) as [dn|]; [|discriminate]. eauto.
Qed.

Lemma improved_false (st : dstate) (alt : distance) (ns : list node) (n : node) (dn : distance) :
  improved st alt ns n = false ->
  n ∈ ns -> n ∈ unvisited st -> distances st !! n = Some dn -> dist_le dn alt.
Proof.
  unfold improved. intros Hf Hn HU Hd.
  rewrite (bool_decide_eq_true_2 _ Hn), (bool_decide_eq_true_2 _ HU), Hd in Hf.
  exact Hf.
Qed.


(** *** Walking back along [previous] *)

Section Dijkstra.
Context (G : Topology) (source destination : node).

Local Abbreviation chain := (Router.chain G source).
Local Abbreviation chain_source := (Router.chain_source G source).
Local Abbreviation chain_step := (Router.chain_step G source).
Local Abbreviation initial := (Router.initial G source).
Local Abbreviation inv := (Router.inv G source destination).
Local Abbreviation inv_sub := (Router.inv_sub G source destination).
Local Abbreviation inv_dest := (Router.inv_dest G source destination).
Local Abbreviation relaxed := (Router.relaxed G).
Local Abbreviation closed := (Router.closed G).
Local Abbreviation opt := (Router.opt G).
Local Abbreviation latency_nonneg := (Router.latency_nonneg G).

Lemma chain_is_path P Q n p : chain P Q n p -> is_path G source n p.
Proof.
  induction 1 as [|m n p _ _ IH _ Hl]; [constructor|].
  econstructor; eassumption.
Qed.

Lemma chain_agree P P' (Q Q' : node -> Prop) n p :
  chain P Q n p ->
  (forall m, Q m -> P' !! m = P !! m) ->
  (forall m, Q m -> Q' m) ->
  P' !! n = P !! n ->
  chain P' Q' n p.
Proof.
  intros Hc Hag Hq. induction Hc as [Hs|m n p Hn _ IH Hm Hl]; intros Hend.
  - apply chain_source. rewrite Hend. exact Hs.
  - eapply chain_step; [rewrite Hend; exact Hn|apply IH, Hag, Hm|apply Hq, Hm|exact Hl].
Qed.

Lemma reconstruct_chain P Q n p :
  chain P Q n p ->
  forall fuel acc, length p <= fuel ->
  reconstruct fuel P (Some n) acc = Returns (acc ++ reverse p).
Proof.
  induction 1 as [Hs|m n p Hn _ IH _ _]; intros fuel acc Hf.
  - destruct fuel as [|fuel]; [simpl in Hf; lia|].
    cbn [reconstruct]. rewrite (getitem_Some _ _ _ Hs). cbn [bind].
    destruct fuel; reflexivity.
  - rewrite length_app in Hf. simpl in Hf.
    destruct fuel as [|fuel]; [lia|].
    cbn [reconstruct]. rewrite (getitem_Some _ _ _ Hn). cbn [bind].
    rewrite IH by lia. rewrite reverse_snoc, <- app_assoc. reflexivity.
Qed.

(** *** The loop invariant *)

Section Invariant.
Context (N : nat).

Local Abbreviation inv := (Router.inv G source destination N).
Local Abbreviation inv_keys_d := (Router.inv_keys_d G source destination N).
Local Abbreviation inv_keys_p := (Router.inv_keys_p G source destination N).
Local Abbreviation inv_sub := (Router.inv_sub G source destination N).
Local Abbreviation inv_source := (Router.inv_source G source destination N).
Local Abbreviation inv_fresh := (Router.inv_fresh G source destination N).
Local Abbreviation inv_chain := (Router.inv_chain G source destination N).
Local Abbreviation inv_settled := (Router.inv_settled G source destination N).
Local Abbreviation inv_dest := (Router.inv_dest G source destination N).
Local Abbreviation opt_order := (Router.opt_order G).
Local Abbreviation opt_relaxed := (Router.opt_relaxed G).
Local Abbreviation turn_spec := (Router.turn_spec G source destination).
Local Abbreviation turn_unreached := (Router.turn_unreached G source destination).
Local Abbreviation turn_found := (Router.turn_found G source destination).
Local Abbreviation turn_next := (Router.turn_next G source destination).

Lemma elem_of_drop (u n : node) (st : dstate) :
  n ∈ unvisited (drop u st) <-> n ≠ u /\ n ∈ unvisited st.
Proof. exact (list_elem_of_filter (fun n => n ≠ u) (unvisited st) n). Qed.

Lemma not_elem_of_drop (u n : node) (st : dstate) :
  n ∉ unvisited (drop u st) -> n = u \/ n ∉ unvisited st.
Proof.
  rewrite elem_of_drop. intros Hn.
  destruct (decide (n = u)) as [->|Hne]; [now left|right].
  intros HU. apply Hn. now split.
Qed.

Lemma length_drop (u : node) (st : dstate) :
  u ∈ unvisited st -> length (unvisited (drop u st)) < length (unvisited st).
Proof.
  intros Hu. unfold drop. cbn [unvisited].
  apply (length_filter_lt _ _ u Hu). intros Hne. now apply Hne.
Qed.

Lemma dijkstra_turn_spec (st : dstate) (first : node) (rest : list node) :
  inv st -> unvisited st = first :: rest ->
  exists t, dijkstra_turn G destination N st first rest = Returns t /\ turn_spec st t.
Proof.
  intros Hinv HU.
  destruct (min_unvisited_spec (distances st) first rest) as (u & du & Hmin & Hu & Hdu & Hleast).
  { intros n Hn. rewrite <- HU in Hn. apply (inv_keys_d st Hinv), (inv_sub st Hinv), Hn. }
  rewrite <- HU in Hu, Hleast.
  assert (Him : is_min st u du) by (repeat split; assumption).
  unfold dijkstra_turn. rewrite Hmin. cbn [bind fst].
  rewrite (getitem_Some _ _ _ Hdu). cbn [bind].
  destruct du as [d|].
  - destruct (decide (u = destination)) as [->|Hne].
    + destruct (inv_chain st Hinv destination d) as (p & Hp & Hcost & Hlen);
        [apply (inv_sub st Hinv), Hu|exact Hdu|].
      rewrite (reconstruct_chain _ _ _ _ Hp).
      2:{ rewrite HU in Hlen. simpl in Hlen. lia. }
      cbn [bind app]. rewrite (getitem_Some _ _ _ Hdu). cbn [bind].
      rewrite reverse_involutive.
      eexists. split; [reflexivity|]. now apply turn_found.
    + destruct (relax_all_spec G u (Finite d) (connections G u) (drop u st))
        as (st' & Hrel & HU' & Hpt).
      { exact Hdu. }
      { rewrite elem_of_drop. intros [Hneq _]. now apply Hneq. }
      { intros n Hn. apply elem_of_drop in Hn as [_ Hn].
        apply (inv_keys_d st Hinv), (inv_sub st Hinv), Hn. }
      fold (drop u st). rewrite Hrel. cbn [bind].
      eexists. split; [reflexivity|].
      apply (turn_next st u d st' Him Hne). split; [exact HU'|exact Hpt].
  - eexists. split; [reflexivity|]. now apply (turn_unreached st u).
Qed.

(** *** The invariant is kept by a turn *)

Lemma improved_drop (st : dstate) (u : node) (alt : distance) (ns : list node) (n : node) :
  improved (drop u st) alt ns n = true ->
  n ∈ ns /\ n ≠ u /\ n ∈ unvisited st /\
  exists dn, distances st !! n = Some dn /\ dist_ltb alt dn = true.
Proof.
  intros Hi. apply improved_true in Hi as (Hn & HU & Hd).
  apply elem_of_drop in HU as [Hne HU]. auto.
Qed.

Lemma improved_settled (st : dstate) (alt : distance) (ns : list node) (n : node) :
  n ∉ unvisited st -> improved st alt ns n = false.
Proof.
  intros Hn. unfold improved. rewrite (bool_decide_eq_false_2 _ Hn).
  now rewrite andb_false_r.
Qed.

Lemma relaxed_settled (st st' : dstate) (u : node) (d : Z) (n : node) :
  relaxed st u d st' -> n ∉ unvisited (drop u st) ->
  distances st' !! n = distances st !! n /\ previous st' !! n = previous st !! n.
Proof.
  intros [_ Hpt] Hn. destruct (Hpt n) as [HD HP].
  rewrite (improved_settled _ _ _ _ Hn) in HD, HP. now split.
Qed.

Lemma relaxed_self (st st' : dstate) (u : node) (d : Z) :
  relaxed st u d st' ->
  distances st' !! u = distances st !! u /\ previous st' !! u = previous st !! u.
Proof.
  intros Hr. apply (relaxed_settled _ _ _ _ _ Hr).
  rewrite elem_of_drop. intros [Hne _]. now apply Hne.
Qed.

Lemma relaxed_old (st st' : dstate) (u : node) (d : Z) (n : node) :
  relaxed st u d st' -> n ∉ unvisited st ->
  distances st' !! n = distances st !! n /\ previous st' !! n = previous st !! n.
Proof.
  intros Hr Hn. apply (relaxed_settled _ _ _ _ _ Hr).
  rewrite elem_of_drop. intros [_ HU]. now apply Hn.
Qed.

(** While the source is unvisited it is the minimum: the first turn
    settles the source. *)
Lemma min_is_source (st : dstate) (u : node) (du : distance) :
  inv st -> is_min st u du -> source ∈ unvisited st -> u = source.
Proof.
  intros Hinv (Hu & Hdu & Hleast) Hs.
  destruct (decide (u = source)) as [->|Hne]; [reflexivity|exfalso].
  rewrite (inv_fresh st Hinv Hs u Hu Hne) in Hdu. injection Hdu as <-.
  pose proof (Hleast source (Finite 0) Hs (inv_source st Hinv)) as Hle.
  discriminate Hle.
Qed.

Lemma source_not_dropped (st : dstate) (u : node) (du : distance) :
  inv st -> is_min st u du -> source ∉ unvisited (drop u st).
Proof.
  intros Hinv Hmin. rewrite elem_of_drop. intros [Hne Hs].
  apply Hne. symmetry. exact (min_is_source st u du Hinv Hmin Hs).
Qed.

Lemma inv_step (st st' : dstate) (u : node) (d : Z) :
  inv st -> is_min st u (Finite d) -> u ≠ destination -> relaxed st u d st' ->
  inv st'.
Proof.
  intros Hinv Hmin Hne Hrel.
  pose proof Hmin as (Hu & Hdu & Hleast).
  pose proof Hrel as [HU Hpt].
  assert (Hun : u ∈ nodes G) by apply (inv_sub st Hinv), Hu.
  split.
  - intros n Hn. destruct (Hpt n) as [-> _].
    destruct (improved _ _ _ n); [eauto|apply (inv_keys_d st Hinv), Hn].
  - intros n Hn. destruct (Hpt n) as [_ ->].
    destruct (improved _ _ _ n); [eauto|apply (inv_keys_p st Hinv), Hn].
  - intros n. rewrite HU, elem_of_drop. intros [_ Hn]. apply (inv_sub st Hinv), Hn.
  - destruct (relaxed_settled st st' u d source Hrel) as [-> _];
      [eapply source_not_dropped; eassumption|apply (inv_source st Hinv)].
  - rewrite HU. intros Hs. exfalso.
    eapply source_not_dropped; eassumption.
  - intros n d' Hn Hd'. destruct (Hpt n) as [HD HP].
    destruct (improved (drop u st) _ (connections G u) n) eqn:Himp.
    + apply improved_drop in Himp as (Hl & Hnu & HnU & _).
      rewrite HD in Hd'. injection Hd' as <-.
      destruct (inv_chain st Hinv u d Hun Hdu) as (p & Hp & Hcost & Hlen).
      exists (p ++ [n]). split; [|split].
      * apply (chain_step _ _ u n p); [exact HP| | |exact Hl].
        -- apply (chain_agree (previous st) _ (fun m => m ∉ unvisited st) _ u p Hp).
           ++ intros m Hm. apply (relaxed_old st st' u d m Hrel Hm).
           ++ intros m Hm. rewrite HU, elem_of_drop. intros [_ Hm']. now apply Hm.
           ++ apply (relaxed_self st st' u d Hrel).
        -- rewrite HU, elem_of_drop. intros [Hneq _]. now apply Hneq.
      * rewrite (path_cost_step G source u n p (chain_is_path _ _ _ _ Hp)). lia.
      * rewrite length_app, HU. cbn [length]. pose proof (length_drop u st Hu). lia.
    + rewrite HD in Hd'.
      destruct (inv_chain st Hinv n d' Hn Hd') as (p & Hp & Hcost & Hlen).
      exists p. split; [|split; [exact Hcost|]].
      * apply (chain_agree (previous st) _ (fun m => m ∉ unvisited st) _ n p Hp).
        -- intros m Hm. apply (relaxed_old st st' u d m Hrel Hm).
        -- intros m Hm. rewrite HU, elem_of_drop. intros [_ Hm']. now apply Hm.
        -- exact HP.
      * rewrite HU. pose proof (length_drop u st Hu). lia.
  - intros v Hv. rewrite HU. intros HvU.
    destruct (relaxed_settled st st' u d v Hrel HvU) as [-> _].
    apply not_elem_of_drop in HvU as [->|HvU]; [eauto|].
    apply (inv_settled st Hinv v Hv HvU).
  - intros Hd. rewrite HU, elem_of_drop. split; [congruence|].
    apply (inv_dest st Hinv Hd).
Qed.

(** *** Links out of settled nodes lead to reached nodes *)

Lemma dist_le_finite_l (a : distance) (x : Z) :
  dist_le a (Finite x) -> exists y, a = Finite y /\ (y <= x)%Z.
Proof.
  destruct a as [y|]; [|discriminate]. rewrite dist_le_finite. eauto.
Qed.

Lemma closed_step (st st' : dstate) (u : node) (d : Z) :
  wf_links G -> inv st -> closed st -> is_min st u (Finite d) ->
  relaxed st u d st' -> closed st'.
Proof.
  intros [Hwf] Hinv Hcl (Hu & Hdu & Hleast) Hrel v n Hv HvU Hl.
  pose proof Hrel as [HU Hpt]. rewrite HU in HvU.
  destruct (Hpt n) as [-> _].
  destruct (improved (drop u st) _ (connections G u) n) eqn:Himp; [eauto|].
  apply not_elem_of_drop in HvU as [->|HvU]; [|exact (Hcl v n Hv HvU Hl)].
  assert (Hn : n ∈ nodes G) by exact (Hwf u n Hv Hl).
  destruct (decide (n ∈ unvisited (drop u st))) as [HnU|HnU].
  - destruct (inv_keys_d st Hinv n Hn) as [dn Hdn].
    pose proof (improved_false _ _ _ _ dn Himp Hl HnU Hdn) as Hle.
    apply dist_le_finite_l in Hle as (y & -> & _). eauto.
  - apply not_elem_of_drop in HnU as [->|HnU]; [eauto|].
    exact (inv_settled st Hinv n Hn HnU).
Qed.

(** *** Settled distances are least *)

Lemma opt_step (st st' : dstate) (u : node) (d : Z) :
  wf_links G -> latency_nonneg ->
  inv st -> opt st -> is_min st u (Finite d) -> relaxed st u d st' -> opt st'.
Proof.
  intros [Hwf] Hlat Hinv Hopt (Hu & Hdu & Hleast) Hrel.
  pose proof Hrel as [HU Hpt].
  assert (Hun : u ∈ nodes G) by apply (inv_sub st Hinv), Hu.
  pose proof (Hlat u Hun) as Hlu.
  split.
  - intros v w dv dw Hv HvU HwU Hdv Hdw. rewrite HU in HvU, HwU.
    destruct (relaxed_settled st st' u d v Hrel HvU) as [HDv _]. rewrite HDv in Hdv.
    apply elem_of_drop in HwU as [Hwu HwU].
    destruct (Hpt w) as [HDw _]. rewrite HDw in Hdw.
    assert (Hvu : (dv <= d)%Z).
    { apply not_elem_of_drop in HvU as [->|HvU].
      - rewrite Hdu in Hdv. injection Hdv as ->. lia.
      - exact (opt_order st Hopt v u dv d Hv HvU Hu Hdv Hdu). }
    destruct (improved (drop u st) _ (connections G u) w) eqn:Himp.
    + injection Hdw as <-. lia.
    + apply not_elem_of_drop in HvU as [->|HvU].
      * rewrite Hdu in Hdv. injection Hdv as <-.
        apply dist_le_finite. exact (Hleast w (Finite dw) HwU Hdw).
      * exact (opt_order st Hopt v w dv dw Hv HvU HwU Hdv Hdw).
  - intros v n dv Hv HvU Hl Hdv. rewrite HU in HvU.
    destruct (relaxed_settled st st' u d v Hrel HvU) as [HDv _]. rewrite HDv in Hdv.
    destruct (Hpt n) as [-> _].
    destruct (improved (drop u st) _ (connections G u) n) eqn:Himp.
    + apply improved_drop in Himp as (_ & _ & _ & dn & Hdn & Hlt).
      apply not_elem_of_drop in HvU as [->|HvU].
      * rewrite Hdu in Hdv. injection Hdv as <-. eexists. split; [reflexivity|lia].
      * destruct (opt_relaxed st Hopt v n dv Hv HvU Hl Hdv) as (dn' & Hdn' & Hle).
        rewrite Hdn in Hdn'. injection Hdn' as ->.
        simpl in Hlt. apply Z.ltb_lt in Hlt.
        eexists. split; [reflexivity|lia].
    + apply not_elem_of_drop in HvU as [->|HvU];
        [|exact (opt_relaxed st Hopt v n dv Hv HvU Hl Hdv)].
      rewrite Hdu in Hdv. injection Hdv as <-.
      assert (Hn : n ∈ nodes G) by exact (Hwf u n Hun Hl).
      destruct (decide (n ∈ unvisited (drop u st))) as [HnU|HnU].
      * destruct (inv_keys_d st Hinv n Hn) as [dn Hdn].
        pose proof (improved_false _ _ _ _ dn Himp Hl HnU Hdn) as Hle.
        apply dist_le_finite_l in Hle as (y & -> & Hy). eauto.
      * apply not_elem_of_drop in HnU as [->|HnU].
        -- exists d. split; [exact Hdu|lia].
        -- destruct (inv_settled st Hinv n Hn HnU) as [dn Hdn].
           exists dn. split; [exact Hdn|].
           pose proof (opt_order st Hopt n u dn d Hn HnU Hu Hdn Hdu). lia.
Qed.

(** A path from the source costs at least the distance of its end when
    that is settled, and otherwise at least the distance of some
    unvisited node. *)
Lemma path_leaves_settled (st : dstate) (x : node) (q : list node) :
  wf_links G -> latency_nonneg -> source ∈ nodes G ->
  inv st -> opt st -> is_path G source x q ->
  exists y dy, distances st !! y = Some (Finite dy) /\ (dy <= path_cost G q)%Z /\
    (y ∈ unvisited st \/ y = x).
Proof.
  intros Hwf Hlat Hs Hinv Hopt Hq.
  induction Hq as [|m n q Hq IH Hl].
  - exists source, 0%Z. split; [apply (inv_source st Hinv)|]. split; [simpl; lia|now right].
  - pose proof (is_path_nodes G source m q Hwf Hs Hq) as Hm.
    rewrite (path_cost_step G source m n q Hq).
    pose proof (Hlat m Hm) as Hlm.
    destruct IH as (y & dy & Hdy & Hle & [Hy| ->]).
    + exists y, dy. split; [exact Hdy|]. split; [lia|now left].
    + destruct (decide (m ∈ unvisited st)) as [HmU|HmU].
      * exists m, dy. split; [exact Hdy|]. split; [lia|now left].
      * destruct (opt_relaxed st Hopt m n dy Hm HmU Hl Hdy) as (dn & Hdn & Hle').
        exists n, dn. split; [exact Hdn|]. split; [lia|now right].
Qed.

Lemma min_is_least (st : dstate) (d : Z) (q : list node) :
  wf_links G -> latency_nonneg -> source ∈ nodes G ->
  inv st -> opt st -> is_min st destination (Finite d) ->
  is_path G source destination q -> (d <= path_cost G q)%Z.
Proof.
  intros Hwf Hlat Hs Hinv Hopt (Hu & Hdu & Hleast) Hq.
  destruct (path_leaves_settled st destination q Hwf Hlat Hs Hinv Hopt Hq)
    as (y & dy & Hdy & Hle & Hy).
  assert (HyU : y ∈ unvisited st) by (destruct Hy as [Hy| ->]; assumption).
  pose proof (Hleast y (Finite dy) HyU Hdy) as Hmin.
  apply dist_le_finite in Hmin. lia.
Qed.

(** When the least unvisited distance is infinite, nothing unvisited can
    be reached from the source. *)
Lemma unreached_unreachable (st : dstate) (u x : node) (q : list node) :
  wf_links G -> source ∈ nodes G ->
  inv st -> closed st -> is_min st u Infinity ->
  is_path G source x q -> x ∈ nodes G /\ x ∉ unvisited st.
Proof.
  intros Hwf Hs Hinv Hcl (Hu & Hdu & Hleast) Hq.
  assert (Hinf : forall n dn, n ∈ unvisited st -> distances st !! n = Some (Finite dn) -> False).
  { intros n dn Hn Hdn. pose proof (Hleast n _ Hn Hdn) as Hle. discriminate Hle. }
  induction Hq as [|m n q Hq [Hm HmU] Hl].
  - split; [exact Hs|]. intros HsU. exact (Hinf source 0%Z HsU (inv_source st Hinv)).
  - destruct (Hcl m n Hm HmU Hl) as [dn Hdn].
    split; [exact (links_closed G Hwf m n Hm Hl)|].
    intros HnU. exact (Hinf n dn HnU Hdn).
Qed.

(** *** The loop *)

Lemma dijkstra_loop_spec (I : dstate -> Prop)
    (post : option (list node) * distance -> Prop) :
  (forall st, I st -> inv st) ->
  (forall st u d st', I st -> is_min st u (Finite d) -> u ≠ destination ->
     relaxed st u d st' -> I st') ->
  (forall st, I st -> unvisited st = [] -> post (None, Infinity)) ->
  (forall st u, I st -> is_min st u Infinity -> post (None, Infinity)) ->
  (forall st d p, I st -> is_min st destination (Finite d) ->
     chain (previous st) (fun m => m ∉ unvisited st) destination p ->
     path_cost G p = d -> post (Some p, Finite d)) ->
  forall fuel st, I st -> length (unvisited st) < fuel ->
  exists r, dijkstra_loop fuel G destination N st = Returns r /\ post r.
Proof.
  intros Hinv Hstep Hempty Hinf Hfound.
  induction fuel as [|fuel IH]; intros st HI Hlen; [lia|].
  cbn [dijkstra_loop].
  destruct (unvisited st) as [|first rest] eqn:HU.
  - eexists. split; [reflexivity|]. exact (Hempty st HI HU).
  - destruct (dijkstra_turn_spec st first rest (Hinv st HI) HU) as (t & -> & Ht).
    cbn [bind]. destruct Ht as [u Hmin|d p Hmin Hp Hcost|u d st' Hmin Hne Hrel].
    + eexists. split; [reflexivity|]. exact (Hinf st u HI Hmin).
    + eexists. split; [reflexivity|]. exact (Hfound st d p HI Hmin Hp Hcost).
    + apply IH; [exact (Hstep st u d st' HI Hmin Hne Hrel)|].
      destruct Hrel as [-> _]. destruct Hmin as [Hu _].
      pose proof (length_drop u st Hu) as Hdrop. rewrite HU in Hdrop.
      cbn [length] in Hdrop, Hlen. lia.
Qed.

End Invariant.

(** *** The initial state *)

Lemma list_to_map_const {V : Type} (v : V) (l : list node) (n : node) :
  n ∈ l -> (list_to_map ((fun n => (n, v)) <$> l) : gmap node V) !! n = Some v.
Proof.
  induction l as [|x l IH]; intros Hn; [inversion Hn|].
  cbn [fmap list_fmap list_to_map foldr].
  destruct (decide (x = n)) as [->|Hne].
  - apply lookup_insert_eq.
  - rewrite lookup_insert_ne by exact Hne. apply IH.
    apply elem_of_cons in Hn as [->|Hn]; [contradiction|exact Hn].
Qed.

Lemma initial_distance (n : node) (d : Z) :
  distances initial !! n = Some (Finite d) -> n = source /\ d = 0%Z.
Proof.
  cbn [initial distances]. destruct (decide (source = n)) as [->|Hne].
  - rewrite lookup_insert_eq. intros [= <-]. now split.
  - rewrite lookup_insert_ne by exact Hne.
    intros Hn. exfalso.
    destruct (decide (n ∈ nodes G)) as [Hin|Hout].
    + rewrite (list_to_map_const Infinity _ _ Hin) in Hn. discriminate.
    + rewrite (not_elem_of_list_to_map_1 _ n) in Hn; [discriminate|].
      rewrite <- list_fmap_compose. intros Hm. apply Hout.
      apply list_elem_of_fmap in Hm as (y & -> & Hy). exact Hy.
Qed.

Lemma unvisited_initial (n : node) : n ∈ unvisited initial <-> n ∈ nodes G.
Proof. exact (elem_of_remove_dups (nodes G) n). Qed.

Lemma inv_initial : inv (length (remove_dups (nodes G))) initial.
Proof.
  split.
  - intros n Hn. cbn [initial distances]. destruct (decide (source = n)) as [->|Hne].
    + rewrite lookup_insert_eq. eauto.
    + rewrite lookup_insert_ne by exact Hne.
      rewrite (list_to_map_const Infinity _ _ Hn). eauto.
  - intros n Hn. cbn [initial previous].
    rewrite (list_to_map_const None _ _ Hn). eauto.
  - intros n Hn. exact (proj1 (unvisited_initial n) Hn).
  - apply lookup_insert_eq.
  - intros _ n Hn Hne. cbn [initial distances].
    rewrite lookup_insert_ne by congruence.
    apply list_to_map_const. exact (proj1 (unvisited_initial n) Hn).
  - intros n d Hn Hd. apply initial_distance in Hd as [-> ->].
    exists [source]. split; [|split; [reflexivity|simpl; lia]].
    apply chain_source. cbn [initial previous]. now apply list_to_map_const.
  - intros v Hv HvU. exfalso. apply HvU. exact (proj2 (unvisited_initial v) Hv).
  - intros Hd. exact (proj2 (unvisited_initial destination) Hd).
Qed.

Lemma closed_initial : closed initial.
Proof.
  intros v n Hv HvU. exfalso. apply HvU. exact (proj2 (unvisited_initial v) Hv).
Qed.

Lemma opt_initial : opt initial.
Proof.
  split.
  - intros v w dv dw Hv HvU. exfalso. apply HvU. exact (proj2 (unvisited_initial v) Hv).
  - intros v n dv Hv HvU. exfalso. apply HvU. exact (proj2 (unvisited_initial v) Hv).
Qed.

(** *** The three results about [dijkstra_shortest_path] *)

Lemma dijkstra_unfold :
  dijkstra_shortest_path G source destination =
  dijkstra_loop (S (length (remove_dups (nodes G)))) G destination
    (length (remove_dups (nodes G))) initial.
Proof. reflexivity. Qed.

(** The call returns; a path it returns leads from the source to the
    destination and costs the distance returned with it. *)
Lemma dijkstra_returns :
  exists r, dijkstra_shortest_path G source destination = Returns r /\
    match r with
    | (Some p, Finite d) =>
        is_path G source destination p /\ path_cost G p = d /\ destination ∈ nodes G
    | (None, Infinity) => True
    | _ => False
    end.
Proof.
  rewrite dijkstra_unfold.
  apply (dijkstra_loop_spec _ (inv (length (remove_dups (nodes G))))).
  - auto.
  - intros st u d st'. apply inv_step.
  - exact (fun _ _ _ => I).
  - exact (fun _ _ _ _ => I).
  - intros st d p Hinv (Hu & _) Hp Hcost. split; [|split; [exact Hcost|]].
    + exact (chain_is_path _ _ _ _ Hp).
    + exact (inv_sub _ _ Hinv _ Hu).
  - apply inv_initial.
  - change (unvisited initial) with (remove_dups (nodes G)). lia.
Qed.

(** With closed links, no path is returned only if there is none. *)
Lemma dijkstra_complete :
  wf_links G -> source ∈ nodes G -> destination ∈ nodes G ->
  exists r, dijkstra_shortest_path G source destination = Returns r /\
    (r.1 = None -> ~ reachable G source destination).
Proof.
  intros Hwf Hs Hd. rewrite dijkstra_unfold.
  apply (dijkstra_loop_spec _
           (fun st => inv (length (remove_dups (nodes G))) st /\ closed st)).
  - now intros st [Hinv _].
  - intros st u d st' [Hinv Hcl] Hmin Hne Hrel. split.
    + exact (inv_step _ st st' u d Hinv Hmin Hne Hrel).
    + exact (closed_step _ st st' u d Hwf Hinv Hcl Hmin Hrel).
  - intros st [Hinv _] HU _. exfalso.
    pose proof (inv_dest _ _ Hinv Hd) as HdU. rewrite HU in HdU. inversion HdU.
  - intros st u [Hinv Hcl] Hmin _ [q Hq].
    apply is_path_valid in Hq.
    destruct (unreached_unreachable _ st u destination q Hwf Hs Hinv Hcl Hmin Hq)
      as [_ HdU].
    exact (HdU (inv_dest _ _ Hinv Hd)).
  - intros st d p _ _ _ _ Hnone. discriminate Hnone.
  - split; [apply inv_initial|apply closed_initial].
  - change (unvisited initial) with (remove_dups (nodes G)). lia.
Qed.

(** With closed links and latencies that are not negative, no path from
    the source to the destination costs less than the distance returned. *)
Lemma dijkstra_least :
  wf_links G -> latency_nonneg -> source ∈ nodes G ->
  exists r, dijkstra_shortest_path G source destination = Returns r /\
    forall p d, r = (Some p, Finite d) ->
    forall q, is_path G source destination q -> (d <= path_cost G q)%Z.
Proof.
  intros Hwf Hlat Hs. rewrite dijkstra_unfold.
  apply (dijkstra_loop_spec _
           (fun st => inv (length (remove_dups (nodes G))) st /\ opt st)).
  - now intros st [Hinv _].
  - intros st u d st' [Hinv Hopt] Hmin Hne Hrel. split.
    + exact (inv_step _ st st' u d Hinv Hmin Hne Hrel).
    + exact (opt_step _ st st' u d Hwf Hlat Hinv Hopt Hmin Hrel).
  - intros st _ _ p d Hr. discriminate Hr.
  - intros st u _ _ p d Hr. discriminate Hr.
  - intros st d p [Hinv Hopt] Hmin _ _ p' d' [= <- <-] q Hq.
    exact (min_is_least _ st d q Hwf Hlat Hs Hinv Hopt Hmin Hq).
  - split; [apply inv_initial|apply opt_initial].
  - change (unvisited initial) with (remove_dups (nodes G)). lia.
Qed.

End Dijkstra.

(** *** Breadth-first search *)

Section FindPath.
Context (G : Topology) (source destination : node).
Context (Hwf : wf_links G) (Hsource : source ∈ nodes G).

Local Abbreviation binv := (Router.binv G source destination).
Local Abbreviation binv_paths := (Router.binv_paths G source destination).
Local Abbreviation binv_visited := (Router.binv_visited G source destination).
Local Abbreviation binv_source := (Router.binv_source G source destination).
Local Abbreviation binv_closed := (Router.binv_closed G source destination).
Local Abbreviation binv_dest := (Router.binv_dest G source destination).
Local Abbreviation weight := (Router.weight G).
Local Abbreviation measure := (Router.measure G).

(** The entries pushed while a node is visited. *)
Lemma enqueue_all (visited : gset node) (path : list node) (ns : list node) :
  forall queue,
  fold_left (enqueue visited path) ns queue =
  queue ++ ((fun m => (m, path ++ [m])) <$> filter (fun m => m ∉ visited) ns).
Proof.
  induction ns as [|m ns IH]; intros queue; [now rewrite app_nil_r|].
  cbn [fold_left]. rewrite IH, filter_cons. unfold enqueue.
  destruct (decide (m ∉ visited)) as [Hm|Hm].
  - rewrite (bool_decide_eq_false_2 _ Hm). now rewrite <- app_assoc.
  - rewrite bool_decide_eq_true_2; [reflexivity|].
    destruct (decide (m ∈ visited)); [assumption|contradiction].
Qed.

Lemma visit_here (visited : gset node) (n : node) : n ∈ {[n]} ∪ visited.
Proof. apply elem_of_union. left. now apply elem_of_singleton. Qed.

Lemma visit_there (visited : gset node) (n m : node) :
  m ∈ visited -> m ∈ {[n]} ∪ visited.
Proof. intros Hm. apply elem_of_union. now right. Qed.

Lemma weight_visit (visited : gset node) (n : node) (l : list node) :
  n ∉ visited ->
  sum_list_with (weight ({[n]} ∪ visited)) l <= sum_list_with (weight visited) l /\
  (n ∈ l ->
   sum_list_with (weight ({[n]} ∪ visited)) l + S (length (connections G n))
   <= sum_list_with (weight visited) l).
Proof.
  intros Hn. induction l as [|x l [IH1 IH2]]; [split; [reflexivity|intros H; inversion H]|].
  cbn [sum_list_with].
  assert (Hx : weight ({[n]} ∪ visited) x <= weight visited x).
  { unfold weight. destruct (decide (x ∈ visited)) as [Hx|Hx].
    - rewrite !bool_decide_eq_true_2; [lia|exact Hx|now apply visit_there].
    - rewrite (bool_decide_eq_false_2 (x ∈ visited)) by exact Hx.
      destruct (bool_decide _); lia. }
  split; [lia|]. intros Hin.
  destruct (decide (x = n)) as [->|Hne].
  - unfold weight at 1 3.
    rewrite bool_decide_eq_true_2 by apply visit_here.
    rewrite (bool_decide_eq_false_2 _ Hn). lia.
  - apply elem_of_cons in Hin as [->|Hin]; [contradiction|].
    specialize (IH2 Hin). lia.
Qed.

Lemma binv_skip (visited : gset node) (n : node) (p : list node)
    (queue : list (node * list node)) :
  binv visited ((n, p) :: queue) -> n ∈ visited -> binv visited queue.
Proof.
  intros [Hp Hv Hs Hc Hd] Hn. split.
  - intros m q Hm. apply Hp. now right.
  - exact Hv.
  - destruct Hs as [Hs|Hs]; [now left|].
    cbn in Hs. apply elem_of_cons in Hs as [->|Hs]; [now left|now right].
  - intros v m Hv' Hl. destruct (Hc v m Hv' Hl) as [Hm|Hm]; [now left|].
    cbn in Hm. apply elem_of_cons in Hm as [->|Hm]; [now left|now right].
  - exact Hd.
Qed.

Lemma binv_visit (visited : gset node) (n : node) (p : list node)
    (queue : list (node * list node)) :
  binv visited ((n, p) :: queue) -> n ≠ destination -> n ∉ visited ->
  binv ({[n]} ∪ visited)
    (fold_left (enqueue ({[n]} ∪ visited) p) (connections G n) queue).
Proof.
  intros [Hp Hv Hs Hc Hd] Hne Hn. rewrite enqueue_all.
  assert (Hnp : is_path G source n p) by (apply Hp; left).
  split.
  - intros m q Hm. apply elem_of_app in Hm as [Hm|Hm]; [apply Hp; now right|].
    apply list_elem_of_fmap in Hm as (x & [= -> ->] & Hx).
    apply list_elem_of_filter in Hx as [_ Hx].
    now apply (path_step G source n x p).
  - intros v Hv'. apply elem_of_union in Hv' as [Hv'|Hv']; [|now apply Hv].
    apply elem_of_singleton in Hv' as ->.
    exact (is_path_nodes G source n p Hwf Hsource Hnp).
  - destruct Hs as [Hs|Hs]; [left; now apply visit_there|].
    cbn in Hs. apply elem_of_cons in Hs as [->|Hs]; [left; apply visit_here|right].
    rewrite fmap_app. apply elem_of_app. now left.
  - intros v m Hv' Hl.
    destruct (decide (m ∈ {[n]} ∪ visited)) as [Hm|Hm]; [now left|].
    apply elem_of_union in Hv' as [Hv'|Hv'].
    + apply elem_of_singleton in Hv' as ->. right.
      rewrite fmap_app. apply elem_of_app. right.
      rewrite <- list_fmap_compose. apply list_elem_of_fmap.
      exists m. split; [reflexivity|].
      apply list_elem_of_filter. split; [exact Hm|exact Hl].
    + destruct (Hc v m Hv' Hl) as [Hm'|Hm']; [left; now apply visit_there|].
      cbn in Hm'. apply elem_of_cons in Hm' as [->|Hm']; [left; apply visit_here|right].
      rewrite fmap_app. apply elem_of_app. now left.
  - intros Hd'. apply elem_of_union in Hd' as [Hd'|Hd']; [|contradiction].
    apply elem_of_singleton in Hd'. congruence.
Qed.

Lemma measure_visit (visited : gset node) (n : node) (p : list node)
    (queue : list (node * list node)) :
  n ∈ nodes G -> n ∉ visited ->
  measure ({[n]} ∪ visited)
    (fold_left (enqueue ({[n]} ∪ visited) p) (connections G n) queue)
  < measure visited ((n, p) :: queue).
Proof.
  intros Hin Hn. unfold measure. rewrite enqueue_all, length_app, length_fmap.
  pose proof (length_filter (fun m => m ∉ {[n]} ∪ visited) (connections G n)).
  destruct (weight_visit visited n (nodes G) Hn) as [_ Hw]. specialize (Hw Hin).
  cbn [length]. lia.
Qed.

Lemma measure_skip (visited : gset node) (e : node * list node)
    (queue : list (node * list node)) :
  measure visited queue < measure visited (e :: queue).
Proof. unfold measure. cbn [length]. lia. Qed.

(** When the queue is empty every node that can be reached is visited. *)
Lemma binv_empty (visited : gset node) (x : node) (q : list node) :
  binv visited [] -> is_path G source x q -> x ∈ visited.
Proof.
  intros [_ _ Hs Hc _]. induction 1 as [|m n q _ IH Hl].
  - destruct Hs as [Hs|Hs]; [exact Hs|inversion Hs].
  - destruct (Hc m n IH Hl) as [Hn|Hn]; [exact Hn|inversion Hn].
Qed.

Lemma find_path_loop_spec (fuel : nat) :
  forall visited queue, binv visited queue -> measure visited queue < fuel ->
  exists r, find_path_loop fuel G destination visited queue = Returns r /\
    match r with
    | Some p => is_path G source destination p
    | None => ~ reachable G source destination
    end.
Proof.
  induction fuel as [|fuel IH]; intros visited queue Hinv Hfuel; [lia|].
  cbn [find_path_loop]. destruct queue as [|[n p] queue].
  - exists None. split; [reflexivity|]. intros [q Hq].
    apply is_path_valid in Hq.
    exact (binv_dest _ _ Hinv (binv_empty visited destination q Hinv Hq)).
  - destruct (decide (n = destination)) as [->|Hne].
    + exists (Some p). split; [reflexivity|]. apply (binv_paths _ _ Hinv). left.
    + destruct (decide (n ∈ visited)) as [Hn|Hn].
      * rewrite (bool_decide_eq_true_2 _ Hn). apply IH.
        -- exact (binv_skip visited n p queue Hinv Hn).
        -- pose proof (measure_skip visited (n, p) queue). lia.
      * rewrite (bool_decide_eq_false_2 _ Hn). apply IH.
        -- exact (binv_visit visited n p queue Hinv Hne Hn).
        -- assert (Hin : n ∈ nodes G).
           { apply (is_path_nodes G source n p Hwf Hsource), (binv_paths _ _ Hinv). left. }
           pose proof (measure_visit visited n p queue Hin Hn). lia.
Qed.

Lemma binv_initial : binv ∅ [(source, [source])].
Proof.
  split.
  - intros n p Hn. apply list_elem_of_singleton in Hn as [= -> ->]. constructor.
  - intros v Hv. now apply not_elem_of_empty in Hv.
  - right. cbn. left.
  - intros v n Hv. now apply not_elem_of_empty in Hv.
  - apply not_elem_of_empty.
Qed.

Lemma weight_empty (l : list node) :
  sum_list_with (weight ∅) l = sum_list_with (fun n => S (length (connections G n))) l.
Proof.
  induction l as [|x l IH]; [reflexivity|].
  cbn [sum_list_with]. rewrite IH. unfold weight.
  rewrite bool_decide_eq_false_2 by apply not_elem_of_empty. reflexivity.
Qed.

(** [find_path] returns: a path to the destination when there is one,
    [None] otherwise. *)
Lemma find_path_returns :
  exists r, find_path G source destination = Returns r /\
    match r with
    | Some p => is_path G source destination p
    | None => ~ reachable G source destination
    end.
Proof.
  unfold find_path. apply find_path_loop_spec; [apply binv_initial|].
  unfold measure, find_path_fuel. rewrite weight_empty. cbn [length]. lia.
Qed.

End FindPath.

End RouterFacts.

(** ** What the router returns *)

Module RouterProperties.
Import Router RouterFacts.

Lemma elem_of_check (n : node) (l : list node) : bool_decide (n ∈ l) = true -> n ∈ l.
Proof. apply bool_decide_eq_true. Qed.

Lemma wf_linksb_true (G : Topology) : wf_linksb G = true -> wf_links G.
Proof.
  unfold wf_linksb. rewrite forallb_forall. intros Hall. split.
  intros m n Hm Hl. apply list_elem_of_In in Hm. specialize (Hall m Hm).
  rewrite forallb_forall in Hall. apply list_elem_of_In in Hl.
  exact (proj1 (bool_decide_eq_true _) (Hall n Hl)).
Qed.

Lemma wf_latencyb_true (G : Topology) : wf_latencyb G = true -> wf_latency G.
Proof.
  unfold wf_latencyb. rewrite forallb_forall. intros Hall. split.
  intros n Hn. apply list_elem_of_In in Hn. specialize (Hall n Hn).
  apply andb_true_iff in Hall as [H1 H2]. lia.
Qed.

Lemma wf_latency_nonneg (G : Topology) : wf_latency G -> latency_nonneg G.
Proof. intros [Hr] n Hn. specialize (Hr n Hn). lia. Qed.

(** C3: the total latency returned with a path is the sum of latency over
    all nodes of that path except the last. *)
Theorem total_latency_is_path_cost (G : Topology) (a b : node)
    (path : list node) (total : distance) :
  dijkstra_shortest_path G a b = Returns (Some path, total) ->
  total = Finite (path_cost G path).
Proof.
  intros Hr. destruct (dijkstra_returns G a b) as (r & Hr' & Hpost).
  rewrite Hr in Hr'. injection Hr' as <-.
  destruct total as [d|]; [|contradiction].
  destruct Hpost as (_ & -> & _). reflexivity.
Qed.

Lemma total_latency_is_path_cost_witness :
  dijkstra_shortest_path star 1 4 = Returns (Some [1; 0; 4], Finite 25) /\
  Finite 25 = Finite (path_cost star [1; 0; 4]).
Proof.
  split; [vm_compute; reflexivity|].
  apply (total_latency_is_path_cost star 1 4). vm_compute. reflexivity.
Defined.

(** C1: a path returned for two nodes of a topology is a valid path from
    the first to the second (it starts at the one, ends at the other, and
    its consecutive nodes are linked), and every path between them costs
    at least the total latency returned, the cost of a path being the sum
    of latency over its nodes except the destination. *)
Theorem returned_path_is_shortest (G : Topology) (a b : node)
    (path : list node) (total : distance) :
  wf_links G -> wf_latency G -> a ∈ nodes G -> b ∈ nodes G ->
  dijkstra_shortest_path G a b = Returns (Some path, total) ->
  valid_path G a b path /\
  exists total_latency, total = Finite total_latency /\
    forall q, valid_path G a b q -> (total_latency <= path_cost G q)%Z.
Proof.
  intros Hwf Hlat Ha _ Hr.
  destruct (dijkstra_returns G a b) as (r & Hr' & Hpost).
  rewrite Hr in Hr'. injection Hr' as <-.
  destruct total as [d|]; [|contradiction].
  destruct Hpost as (Hp & _ & _). split; [now apply is_path_valid|].
  exists d. split; [reflexivity|].
  destruct (dijkstra_least G a b Hwf (wf_latency_nonneg G Hlat) Ha) as (r & Hr' & Hleast).
  rewrite Hr in Hr'. injection Hr' as <-.
  intros q Hq. apply (Hleast path d eq_refl). now apply is_path_valid.
Qed.

Lemma returned_path_is_shortest_witness :
  valid_path star 1 4 [1; 0; 4] /\
  exists total_latency, Finite 25 = Finite total_latency /\
    forall q, valid_path star 1 4 q -> (total_latency <= path_cost star q)%Z.
Proof.
  apply (returned_path_is_shortest star 1 4 [1; 0; 4] (Finite 25)).
  - apply wf_linksb_true. vm_compute. reflexivity.
  - apply wf_latencyb_true. vm_compute. reflexivity.
  - apply elem_of_check. vm_compute. reflexivity.
  - apply elem_of_check. vm_compute. reflexivity.
  - vm_compute. reflexivity.
Defined.

(** C2: between two nodes of a topology, [dijkstra_shortest_path] returns
    no path exactly when the second cannot be reached from the first over
    the links, and that is exactly when [find_path] returns [None]; when
    it can be reached both return a path. *)
Theorem no_path_iff_unreachable (G : Topology) (a b : node) :
  wf_links G -> a ∈ nodes G -> b ∈ nodes G ->
  (dijkstra_shortest_path G a b = Returns (None, Infinity) <-> ~ reachable G a b) /\
  (find_path G a b = Returns None <-> ~ reachable G a b) /\
  (dijkstra_shortest_path G a b = Returns (None, Infinity) <->
   find_path G a b = Returns None) /\
  (reachable G a b ->
   (exists p d, dijkstra_shortest_path G a b = Returns (Some p, Finite d)) /\
   (exists p, find_path G a b = Returns (Some p))).
Proof.
  intros Hwf Ha Hb.
  destruct (dijkstra_returns G a b) as (r & Hr & Hsound).
  destruct (dijkstra_complete G a b Hwf Ha Hb) as (r' & Hr' & Hcomplete).
  rewrite Hr in Hr'. injection Hr' as <-.
  destruct (find_path_returns G a b Hwf Ha) as (f & Hf & Hfind).
  assert (Hd : dijkstra_shortest_path G a b = Returns (None, Infinity) <-> ~ reachable G a b).
  { rewrite Hr. destruct r as [[p|] [d|]]; try contradiction.
    - destruct Hsound as (Hp & _). split; [discriminate|].
      intros Hn. exfalso. apply Hn. exists p. now apply is_path_valid.
    - split; [intros _; now apply Hcomplete|reflexivity]. }
  assert (Hb' : find_path G a b = Returns None <-> ~ reachable G a b).
  { rewrite Hf. destruct f as [p|].
    - split; [discriminate|]. intros Hn. exfalso. apply Hn.
      exists p. now apply is_path_valid.
    - split; [intros _; exact Hfind|reflexivity]. }
  split; [exact Hd|]. split; [exact Hb'|]. split; [now rewrite Hd, Hb'|].
  intros Hreach. split.
  - rewrite Hr. destruct r as [[p|] [d|]]; try contradiction; [eauto|].
    exfalso. now apply Hcomplete.
  - rewrite Hf. destruct f as [p|]; [eauto|]. exfalso. now apply Hfind.
Qed.

Lemma no_path_iff_unreachable_witness :
  (dijkstra_shortest_path two_nodes 0 1 = Returns (None, Infinity) <->
   find_path two_nodes 0 1 = Returns None) /\
  dijkstra_shortest_path two_nodes 0 1 = Returns (None, Infinity).
Proof.
  split; [|vm_compute; reflexivity].
  apply (no_path_iff_unreachable two_nodes 0 1).
  - apply wf_linksb_true. vm_compute. reflexivity.
  - apply elem_of_check. vm_compute. reflexivity.
  - apply elem_of_check. vm_compute. reflexivity.
Defined.

(** C10: for a node of the topology taken as source and as destination,
    [dijkstra_shortest_path] returns the path of that one node with total
    latency 0: not [None], and no error. *)
Theorem path_to_self (G : Topology) (a : node) :
  a ∈ nodes G ->
  dijkstra_shortest_path G a a = Returns (Some [a], Finite 0).
Proof.
  intros Ha. rewrite dijkstra_unfold.
  set (N := length (remove_dups (nodes G))).
  pose proof (inv_initial G a a) as Hinv. fold N in Hinv.
  assert (HaU : a ∈ unvisited (initial G a)) by now apply unvisited_initial.
  cbn [dijkstra_loop].
  destruct (unvisited (initial G a)) as [|first rest] eqn:HU; [inversion HaU|].
  destruct (dijkstra_turn_spec G a a N (initial G a) first rest Hinv HU) as (t & -> & Ht).
  cbn [bind]. rewrite <- HU in HaU.
  destruct Ht as [u Hmin|d p Hmin Hp Hcost|u d st' Hmin Hne Hrel].
  - exfalso. pose proof (min_is_source G a a N _ u _ Hinv Hmin HaU) as ->.
    destruct Hmin as (_ & Hd & _). rewrite (inv_source _ _ _ _ _ Hinv) in Hd. discriminate.
  - destruct Hmin as (_ & Hd & _). rewrite (inv_source _ _ _ _ _ Hinv) in Hd.
    injection Hd as <-.
    inversion Hp as [Hs|m n q Hprev _ _ _]; [reflexivity|exfalso].
    cbn [initial previous] in Hprev.
    rewrite (list_to_map_const None _ _ Ha) in Hprev. discriminate.
  - exfalso. apply Hne. exact (min_is_source G a a N _ u _ Hinv Hmin HaU).
Qed.

Lemma path_to_self_witness :
  dijkstra_shortest_path star 3 3 = Returns (Some [3], Finite 0).
Proof.
  apply (path_to_self star 3). apply elem_of_check. vm_compute. reflexivity.
Defined.

(** The scenario of the star: from PC1 to PC4 through ROUTER1, at the cost
    of the latencies of PC1 and ROUTER1. *)
Example star_pc1_pc4 :
  dijkstra_shortest_path star 1 4
  = Returns (Some [1; 0; 4], Finite (latency star 0 + latency star 1)).
Proof. vm_compute. reflexivity. Qed.

(** The scenario of two nodes never connected. *)
Example two_nodes_no_path :
  dijkstra_shortest_path two_nodes 0 1 = Returns (None, Infinity) /\
  find_path two_nodes 0 1 = Returns None.
Proof. split; vm_compute; reflexivity. Qed.

End RouterProperties.

(** ** Connecting nodes on the canvas *)

Module ConnectFacts.
Import Sim.












End ConnectFacts.

(** ** The packet life cycle *)

Module SimFacts.
Import Py PyFacts Sim.

(** *** What the engine leaves alone *)

Lemma frame_refl (s : t) : frame s s.
Proof. now split. Qed.

Lemma frame_trans (s1 s2 s3 : t) : frame s1 s2 -> frame s2 s3 -> frame s1 s3.
Proof.
  intros [] []. split; etransitivity; eassumption.
Qed.

Lemma frame_update (n : node) (f : Node.t -> Node.t) (s : t) : frame s (update n f s).
Proof. now split. Qed.

Lemma frame_update_all (ns : list node) (f : Node.t -> Node.t) (s : t) :
  frame s (update_all ns f s).
Proof.
  revert s. induction ns as [|n ns IH]; intros s; [apply frame_refl|].
  apply (frame_trans _ (update n f s)); [apply frame_update|apply IH].
Qed.

Lemma frame_with_timers (v : list (Z * callback)) (s : t) : frame s (with_timers v s).
Proof. now split. Qed.

Lemma frame_with_packets (v : list Packet.t) (s : t) : frame s (with_packets v s).
Proof. now split. Qed.

(** *** Congestion stays between 0 and 10 *)

Lemma all_ok_update (n : node) (f : Node.t -> Node.t) (s : t) :
  (forall r, congestion_ok r -> congestion_ok (f r)) ->
  all_ok s -> all_ok (update n f s).
Proof.
  intros Hf Hok k. cbn. case_decide; [apply Hf|]; apply Hok.
Qed.

Lemma all_ok_update_all (ns : list node) (f : Node.t -> Node.t) (s : t) :
  (forall r, congestion_ok r -> congestion_ok (f r)) ->
  all_ok s -> all_ok (update_all ns f s).
Proof.
  intros Hf. revert s. induction ns as [|n ns IH]; intros s Hok; [exact Hok|].
  apply IH, all_ok_update; assumption.
Qed.

Section Rounding.
Context `{RoundingOk}.

Local Ltac small := simpl; lia.
Local Ltac qconst := cbn [val] in *; unfold inject_Z in *; lra.

Lemma lit_nonneg (q : Q) : (0 <= q)%Q -> (0 <= val (lit q))%Q.
Proof. intros Hq. cbn. now apply (fl_lower 0); [small|]. Qed.

Lemma mul_nonneg (a b : num) :
  (0 <= val a)%Q -> (0 <= val b)%Q -> (0 <= val (mul a b))%Q.
Proof.
  intros Ha Hb.
  pose proof (to_float_lower 0 a ltac:(small) Ha) as Ha'.
  pose proof (to_float_lower 0 b ltac:(small) Hb) as Hb'.
  assert (Hm : (inject_Z 0 <= to_float a * to_float b)%Q)
    by now apply Qmult_le_0_compat.
  destruct a as [x|x], b as [y|y]; cbn [mul val];
    try (apply (fl_lower 0); [small|exact Hm]).
  cbn in Ha, Hb. change 0%Q with (inject_Z 0) in *. rewrite <- Zle_Qle in *. nia.
Qed.

Lemma sub_upper (a b : num) :
  (val a <= 10)%Q -> (0 <= val b)%Q -> (val (sub a b) <= 10)%Q.
Proof.
  intros Ha Hb.
  pose proof (to_float_upper 10 a ltac:(small) Ha) as Ha'.
  pose proof (to_float_lower 0 b ltac:(small) Hb) as Hb'.
  assert (Hs : (to_float a - to_float b <= inject_Z 10)%Q).
  { change (inject_Z 0) with 0%Q in Hb'. lra. }
  destruct a as [x|x], b as [y|y]; cbn [sub val];
    try (apply (fl_upper 10); [small|exact Hs]).
  cbn in Ha, Hb. change 0%Q with (inject_Z 0) in Hb. change 10%Q with (inject_Z 10) in Ha.
  change 10%Q with (inject_Z 10). rewrite <- Zle_Qle in *. lia.
Qed.

(** [min(10, congestion + x)] for an [x] that is not negative. *)
Lemma raise_ok (x : num) (r : Node.t) :
  (0 <= val x)%Q -> congestion_ok r ->
  congestion_ok (Node.set_congestion (min (Int 10) (add (Node.congestion r) x)) r).
Proof.
  intros Hx [Hlo Hhi]. unfold congestion_ok. cbn [Node.set_congestion Node.congestion].
  split.
  - pose proof (add_lower 0 0 (Node.congestion r) x ltac:(small) ltac:(small)
                  ltac:(small) Hlo Hx) as Hsum.
    change (inject_Z (0 + 0)) with 0%Q in Hsum.
    destruct (min_spec (Int 10) (add (Node.congestion r) x)) as [[_ ->]|[_ ->]];
      [exact Hsum|qconst].
  - apply (min_upper_l (Int 10)).
Qed.

(** [max(0, congestion - x)] for an [x] that is not negative. *)
Lemma lower_ok (x : num) (r : Node.t) :
  (0 <= val x)%Q -> congestion_ok r ->
  congestion_ok (Node.set_congestion (max (Int 0) (sub (Node.congestion r) x)) r).
Proof.
  intros Hx [Hlo Hhi]. unfold congestion_ok. cbn [Node.set_congestion Node.congestion].
  split.
  - apply (max_lower_l (Int 0)).
  - destruct (max_spec (Int 0) (sub (Node.congestion r) x)) as [[_ ->]|[_ ->]];
      [now apply sub_upper|qconst].
Qed.

Lemma with_control_ok (f : TCP.t -> TCP.t) (r : Node.t) :
  congestion_ok r -> congestion_ok (Node.with_control f r).
Proof. exact (fun H => H). Qed.

Lemma time_out_ok (now : num) (r : Node.t) :
  congestion_ok r -> congestion_ok (time_out now r).
Proof.
  intros Hok. unfold time_out.
  apply (raise_ok (Int 2)); [qconst|exact Hok].
Qed.

Lemma check_node_ok (now : num) (r : Node.t) :
  congestion_ok r -> congestion_ok (check_node now r).
Proof.
  intros Hok. unfold check_node.
  destruct (Node.tcp_control r); [|exact Hok].
  destruct (0 <? Node.packets_in_flight r)%Z; [|exact Hok].
  destruct (gtb _ _); [now apply time_out_ok|exact Hok].
Qed.

Lemma decay_node_ok (load : TrafficLoad) (r : Node.t) :
  congestion_ok r -> congestion_ok (decay_node load r).
Proof.
  intros Hok. unfold decay_node.
  destruct (gtb _ _); [|exact Hok].
  apply lower_ok; [|exact Hok].
  destruct load; apply lit_nonneg; lra.
Qed.

(** *** The steps of [start_packet_generation] *)

Lemma sample_loss_frame (rand : nat -> Q) (path : list node) :
  forall k s, frame s (sample_loss rand k path s).2.
Proof.
  induction path as [|n path IH]; intros k s; [apply frame_refl|].
  cbn [sample_loss]. destruct (ltb _ _); [apply frame_update|].
  eapply frame_trans; [apply frame_update|apply IH].
Qed.

Lemma sample_loss_ok (rand : nat -> Q) (path : list node) :
  forall k s, all_ok s -> all_ok (sample_loss rand k path s).2.
Proof.
  induction path as [|n path IH]; intros k s Hok; [exact Hok|].
  cbn [sample_loss].
  assert (Hok' : all_ok (update n (fun r =>
            Node.set_packet_loss_probability
              (min (lit (3 # 10)) (mul (Node.congestion r) (lit (3 # 100)))) r) s)).
  { apply all_ok_update; [|exact Hok]. intros r Hr. exact Hr. }
  destruct (ltb _ _); [exact Hok'|apply IH, Hok'].
Qed.

(** The controller of a node is the only thing [with_control] touches. *)
Lemma on_loss_frame (source : node) (path : list node) (s : t) :
  frame s (on_loss source path s).
Proof.
  unfold on_loss. eapply frame_trans; [apply frame_update|apply frame_update_all].
Qed.

Lemma on_loss_ok (source : node) (path : list node) (s : t) :
  all_ok s -> all_ok (on_loss source path s).
Proof.
  intros Hok. unfold on_loss. apply all_ok_update_all.
  - intros r Hr. apply raise_ok; [|exact Hr].
    apply mul_nonneg; [|apply lit_nonneg; lra].
    destruct (TCP.state <$> _) as [[]|]; try (apply lit_nonneg; lra); qconst.
  - apply all_ok_update; [|exact Hok]. intros r Hr. exact Hr.
Qed.

Lemma on_send_returns (d : Draws) (source destination : node) (path : list node)
    (total : Z) (s : t) :
  exists sent,
    on_send d source destination path (Router.Finite total) s = Returns sent /\
    frame s sent /\ (all_ok s -> all_ok sent).
Proof.
  unfold on_send. cbn [int_of_distance bind].
  eexists. split; [reflexivity|]. split.
  - eapply frame_trans; [|apply frame_update_all].
    eapply frame_trans; [|apply frame_with_timers].
    eapply frame_trans; [|apply frame_update].
    eapply frame_trans; [|apply frame_update].
    apply frame_with_packets.
  - intros Hok. apply all_ok_update_all.
    + intros r Hr. apply raise_ok; [|exact Hr].
      match goal with
      | |- context [truediv ?a ?b] =>
          assert (Hcf : (0 <= val (truediv a b))%Q)
      end.
      { apply truediv_nonneg; [qconst|]. cbn [val].
        change 0%Q with (inject_Z 0). rewrite <- Zle_Qle. lia. }
      cbn [traffic_load with_timers update with_heap with_packets].
      destruct (traffic_load s); [|exact Hcf|].
      * apply mul_nonneg; [exact Hcf|apply lit_nonneg; lra].
      * apply mul_nonneg; [exact Hcf|qconst].
    + intros n. cbn. repeat case_decide; apply Hok.
Qed.

Lemma heap_track_performance (l : Router.distance) (h : Z) (t1 t2 : num) (s : t) :
  heap (track_performance l h t1 t2 s) = heap s.
Proof. unfold track_performance. destruct (50 <? _)%nat; reflexivity. Qed.

Lemma nodes_track_performance (l : Router.distance) (h : Z) (t1 t2 : num) (s : t) :
  nodes (track_performance l h t1 t2 s) = nodes s /\
  allocated (track_performance l h t1 t2 s) = allocated s /\
  packet_generation_rate (track_performance l h t1 t2 s) = packet_generation_rate s.
Proof. unfold track_performance. destruct (50 <? _)%nat; repeat split. Qed.

(** [track_performance] counts one more packet and records the latency
    and the hop count it was given as the last entry of the history. *)
Lemma track_performance_records (l : Router.distance) (h : Z) (t1 t2 : num) (s : t) :
  let s' := track_performance l h t1 t2 s in
  total_packets (routing_stats s') = (total_packets (routing_stats s) + 1)%Z /\
  exists e, last (path_history (routing_stats s')) = Some e /\
    hops e = (h - 1)%Z /\ latency e = l.
Proof.
  assert (Hlast_tail : forall (A : Type) (k : list A) (x : A),
            (1 <= length k)%nat -> last (tail (k ++ [x])) = Some x).
  { intros A k x Hk. destruct k as [|y k]; [simpl in Hk; lia|].
    cbn [tail app]. apply last_snoc. }
  cbn zeta. unfold track_performance.
  destruct (50 <? _)%nat;
    cbn [routing_stats latency_history with_routing_stats with_throughput_history
         with_latency_history with_time_stamps total_packets path_history];
    (split; [reflexivity|]);
    (destruct (100 <? _)%nat eqn:H100;
     [eexists; split; [apply Hlast_tail|split; reflexivity];
      apply Nat.ltb_lt in H100; rewrite length_app in H100; cbn [length] in H100; lia
     |eexists; split; [apply last_snoc|split; reflexivity]]).
Qed.

Lemma attempt_spec (d : Draws) (source destination : node) (path : list node)
    (total : Z) (s : t) :
  exists sent,
    (let (packet_loss, s1) := sample_loss (random d) 0 path s in
     if packet_loss then sent = on_loss source path s1
     else on_send d source destination path (Router.Finite total) s1 = Returns sent) /\
    attempt d source destination path (Router.Finite total) s =
      Returns (track_performance (Router.Finite total) (Z.of_nat (length path))
                 (track_time d) (history_time d) sent) /\
    frame s sent /\ (all_ok s -> all_ok sent).
Proof.
  unfold attempt.
  pose proof (sample_loss_frame (random d) path 0 s) as Hf1.
  pose proof (sample_loss_ok (random d) path 0 s) as Hok1.
  destruct (sample_loss (random d) 0 path s) as [lost s1]. cbn [snd] in Hf1, Hok1.
  destruct lost.
  - exists (on_loss source path s1). split; [reflexivity|]. split; [reflexivity|].
    split; [exact (frame_trans _ _ _ Hf1 (on_loss_frame source path s1))|].
    intros Hok. apply on_loss_ok, Hok1, Hok.
  - destruct (on_send_returns d source destination path total s1)
      as (sent & Hsent & Hf2 & Hok2).
    exists sent. split; [exact Hsent|]. rewrite Hsent. split; [reflexivity|].
    split; [exact (frame_trans _ _ _ Hf1 Hf2)|].
    intros Hok. apply Hok2, Hok1, Hok.
Qed.

Lemma check_timeouts_frame (now : num) (s : t) : frame s (check_timeouts now s).
Proof. apply frame_update_all. Qed.

Lemma check_timeouts_ok (now : num) (s : t) : all_ok s -> all_ok (check_timeouts now s).
Proof. apply all_ok_update_all. intros r. apply check_node_ok. Qed.

Lemma handle_packet_ack_frame (source : node) (path : list node) (now : num) (s : t) :
  frame s (handle_packet_ack source path now s).
Proof.
  unfold handle_packet_ack. destruct (Node.tcp_control _); [|apply frame_refl].
  eapply frame_trans; [|apply frame_update_all].
  eapply frame_trans; [|apply frame_update].
  eapply frame_trans; [|apply frame_update]. apply frame_update.
Qed.

Lemma handle_packet_ack_ok (source : node) (path : list node) (now : num) (s : t) :
  all_ok s -> all_ok (handle_packet_ack source path now s).
Proof.
  intros Hok. unfold handle_packet_ack. destruct (Node.tcp_control _); [|exact Hok].
  apply all_ok_update_all.
  - intros r. apply lower_ok, lit_nonneg. lra.
  - repeat (apply all_ok_update; [intros r Hr; exact Hr|]). exact Hok.
Qed.

Lemma decay_congestion_frame (s : t) : frame s (decay_congestion s).
Proof.
  unfold decay_congestion. destruct (simulation_running s); [|apply frame_refl].
  eapply frame_trans; [apply frame_update_all|apply frame_with_timers].
Qed.

Lemma decay_congestion_ok (s : t) : all_ok s -> all_ok (decay_congestion s).
Proof.
  intros Hok. unfold decay_congestion. destruct (simulation_running s); [|exact Hok].
  apply (all_ok_update_all (nodes s) (decay_node (traffic_load s)) s);
    [|exact Hok].
  intros r. apply decay_node_ok.
Qed.

(** *** The nodes of the simulator are distinct objects *)

Lemma wf_same (s s' : t) :
  nodes s' = nodes s -> allocated s' = allocated s -> wf s -> wf s'.
Proof. intros Hn Ha [Hd Hf]. split; rewrite ?Hn, ?Ha; assumption. Qed.

Lemma wf_frame (s s' : t) : frame s s' -> wf s -> wf s'.
Proof. intros Hf. apply wf_same; [apply (frame_nodes _ _ Hf)|apply (frame_allocated _ _ Hf)]. Qed.

Lemma choice_returns {A : Type} (l : list A) (i : nat) :
  l ≠ [] -> exists a, choice l i = Returns a /\ a ∈ l.
Proof.
  intros Hl. unfold choice.
  assert (Hlt : i mod length l < length l).
  { apply Nat.mod_upper_bound. destruct l; [contradiction|discriminate]. }
  destruct (lookup_lt_is_Some_2 l _ Hlt) as [a Ha].
  exists a. rewrite Ha. split; [reflexivity|].
  eapply list_elem_of_lookup_2, Ha.
Qed.

Lemma others_exist (l : list node) (a : node) :
  NoDup l -> 1 < length l -> filter (fun n => n ≠ a) l ≠ [].
Proof.
  intros Hd Hlen. destruct l as [|x [|y l]]; try (simpl in Hlen; lia).
  apply NoDup_cons in Hd as [Hx _].
  assert (Hxy : x ≠ y) by (intros ->; apply Hx; left).
  intros Hnil.
  destruct (decide (x = a)) as [->|Hxa].
  - assert (Hy : y ∈ filter (fun n => n ≠ a) (a :: y :: l)).
    { apply list_elem_of_filter. split; [congruence|right; left]. }
    rewrite Hnil in Hy. inversion Hy.
  - assert (Hx' : x ∈ filter (fun n => n ≠ a) (x :: y :: l)).
    { apply list_elem_of_filter. split; [exact Hxa|left]. }
    rewrite Hnil in Hx'. inversion Hx'.
Qed.

(** *** A call of [start_packet_generation] *)

Lemma finish_frame (d : Draws) (s : t) : frame s (finish d s).
Proof.
  unfold finish. eapply frame_trans; [apply check_timeouts_frame|apply frame_with_timers].
Qed.

Lemma finish_ok (d : Draws) (s : t) : all_ok s -> all_ok (finish d s).
Proof. intros Hok. unfold finish. exact (check_timeouts_ok (check_time d) s Hok). Qed.

Lemma start_packet_generation_inv (d : Draws) (s : t) :
  all_ok s -> wf s ->
  exists s', start_packet_generation d s = Returns s' /\ all_ok s' /\ wf s'.
Proof.
  intros Hok Hwf. unfold start_packet_generation.
  destruct (simulation_running s && (1 <? length (nodes s))%nat) eqn:Hguard; [|eauto].
  apply andb_true_iff in Hguard as [_ Hlen]. apply Nat.ltb_lt in Hlen.
  destruct (choice_returns (nodes s) (pick_source d)) as (source & -> & _).
  { destruct (nodes s); [simpl in Hlen; lia|discriminate]. }
  cbn [bind].
  destruct (choice_returns (filter (fun n => n ≠ source) (nodes s)) (pick_destination d))
    as (destination & -> & _).
  { apply others_exist; [apply (wf_nodup s Hwf)|exact Hlen]. }
  cbn [bind].
  assert (Hdone : forall s1, all_ok s1 -> nodes s1 = nodes s -> allocated s1 = allocated s ->
            exists s', Returns (finish d s1) = Returns s' /\ all_ok s' /\ wf s').
  { intros s1 Hok1 Hn1 Ha1. eexists. split; [reflexivity|].
    split; [now apply finish_ok|].
    apply (wf_frame s1); [apply finish_frame|now apply (wf_same s)]. }
  fold (finish d).
  destruct (Node.tcp_control (heap s source)) as [c|]; [|now apply Hdone].
  destruct (Node.packets_in_flight (heap s source) <? TCP.get_window_size c)%Z;
    [|now apply Hdone].
  destruct (RouterFacts.dijkstra_returns (topology s) source destination)
    as (found & -> & Hfound).
  cbn [bind]. destruct found as [[[|n rest]|] total]; try now apply Hdone.
  destruct total as [total|]; [|contradiction].
  cbn [fst snd].
  destruct (attempt_spec d source destination (n :: rest) total s)
    as (sent & _ & -> & Hframe & Hsent).
  cbn [bind].
  apply Hdone.
  - intros k. rewrite heap_track_performance. apply Hsent, Hok.
  - transitivity (nodes sent); [|apply (frame_nodes _ _ Hframe)].
    apply (proj1 (nodes_track_performance _ _ _ _ _)).
  - transitivity (allocated sent); [|apply (frame_allocated _ _ Hframe)].
    apply (proj1 (proj2 (nodes_track_performance _ _ _ _ _))).
Qed.

(** *** Every action keeps the invariant *)

Lemma click_frame (clicked : option node) (s : t) : frame s (click clicked s).
Proof.
  unfold click, link. destruct clicked as [c|]; [|apply frame_refl].
  destruct (connection_mode s); [|now split].
  destruct (selected_node s) as [sel|]; [|now split].
  destruct (decide (sel = c)); [apply frame_refl|].
  destruct (bool_decide _); now split.
Qed.

Lemma click_ok (clicked : option node) (s : t) : all_ok s -> all_ok (click clicked s).
Proof.
  intros Hok. unfold click, link. destruct clicked as [c|]; [|exact Hok].
  destruct (connection_mode s); [|exact Hok].
  destruct (selected_node s) as [sel|]; [|exact Hok].
  destruct (decide (sel = c)); [exact Hok|].
  destruct (bool_decide _); [exact Hok|].
  intros k. cbn. repeat case_decide; apply Hok.
Qed.

Lemma add_node_ok (node_type : Node.NodeType) (d : NodeDraws) (s : t) :
  all_ok s -> all_ok (add_node node_type d s).
Proof.
  intros Hok k. unfold add_node. cbn. case_decide; [|apply Hok].
  split; cbn; unfold inject_Z; lra.
Qed.

Lemma add_node_wf (node_type : Node.NodeType) (d : NodeDraws) (s : t) :
  wf s -> wf (add_node node_type d s).
Proof.
  intros [Hd Hf]. unfold add_node. split; cbn.
  - apply NoDup_app. split; [exact Hd|]. split; [|apply NoDup_singleton].
    intros n Hn Hn'. apply list_elem_of_singleton in Hn'. subst n.
    specialize (Hf _ Hn). lia.
  - intros n Hn. apply elem_of_app in Hn as [Hn|Hn].
    + specialize (Hf _ Hn). lia.
    + apply list_elem_of_singleton in Hn. subst n. lia.
Qed.

Lemma set_congestion_algorithm_frame (a : TCP.Algorithm) (s : t) :
  nodes (set_congestion_algorithm a s) = nodes s /\
  allocated (set_congestion_algorithm a s) = allocated s.
Proof.
  unfold set_congestion_algorithm.
  pose proof (frame_update_all (nodes (with_congestion_algorithm a s))
                (Node.set_tcp_control (Some (new_control a)))
                (with_congestion_algorithm a s)) as Hf.
  split; [apply (frame_nodes _ _ Hf)|apply (frame_allocated _ _ Hf)].
Qed.

Lemma set_congestion_algorithm_ok (a : TCP.Algorithm) (s : t) :
  all_ok s -> all_ok (set_congestion_algorithm a s).
Proof.
  intros Hok. unfold set_congestion_algorithm.
  apply all_ok_update_all; [|exact Hok]. intros r Hr. exact Hr.
Qed.

Lemma step_inv (a : action) (s : t) :
  all_ok s -> wf s ->
  exists s', step s a = Returns s' /\ all_ok s' /\ wf s'.
Proof.
  intros Hok Hwf.
  destruct a as [node_type d| |x y|load|algorithm|d|d|source path now|]; cbn [step].
  - eexists. split; [reflexivity|].
    split; [now apply add_node_ok|now apply add_node_wf].
  - eexists. split; [reflexivity|]. unfold toggle_connection_mode.
    destruct (connection_mode _);
      (split; [exact Hok|now apply (wf_same s)]).
  - eexists. split; [reflexivity|]. unfold on_canvas_click.
    split; [now apply click_ok|]. apply (wf_frame s); [apply click_frame|exact Hwf].
  - eexists. split; [reflexivity|]. unfold set_traffic_load.
    destruct load; (split; [exact Hok|now apply (wf_same s)]).
  - eexists. split; [reflexivity|].
    split; [now apply set_congestion_algorithm_ok|].
    destruct (set_congestion_algorithm_frame algorithm s) as [Hn Ha].
    now apply (wf_same s).
  - unfold toggle_simulation.
    cbn [simulation_running with_simulation_running].
    destruct (negb (simulation_running s)).
    + destruct (start_packet_generation_inv d
                  (with_simulation_running true s) Hok) as (s' & -> & Hok' & Hwf');
        [now apply (wf_same s)|].
      cbn [bind]. eexists. split; [reflexivity|].
      split; [now apply decay_congestion_ok|].
      apply (wf_frame s'); [apply decay_congestion_frame|exact Hwf'].
    + eexists. split; [reflexivity|].
      split; [exact Hok|now apply (wf_same s)].
  - now apply start_packet_generation_inv.
  - eexists. split; [reflexivity|].
    split; [now apply handle_packet_ack_ok|].
    apply (wf_frame s); [apply handle_packet_ack_frame|exact Hwf].
  - eexists. split; [reflexivity|].
    split; [now apply decay_congestion_ok|].
    apply (wf_frame s); [apply decay_congestion_frame|exact Hwf].
Qed.

Lemma run_inv (actions : list action) :
  forall s, all_ok s -> wf s ->
  exists s', run s actions = Returns s' /\ all_ok s' /\ wf s'.
Proof.
  induction actions as [|a actions IH]; intros s Hok Hwf; [eauto|].
  cbn [run]. destruct (step_inv a s Hok Hwf) as (s1 & -> & Hok1 & Hwf1).
  cbn [bind]. now apply IH.
Qed.

(** C7: from a simulator whose nodes all have congestion 0, whatever the
    sequence of actions (packet generation with its loss branch, its
    success branch and its timeout check, ACKs, the periodic decay, and
    the commands of the user), the sequence runs to its end and every
    node's congestion is then between 0 and 10. *)
Theorem congestion_stays_in_range (s : t) (actions : list action) :
  (forall n, Node.congestion (heap s n) = Int 0) ->
  NoDup (nodes s) ->
  (forall n, n ∈ nodes s -> n < allocated s) ->
  exists s', run s actions = Returns s' /\
    forall n, (0 <= val (Node.congestion (heap s' n)))%Q /\
              (val (Node.congestion (heap s' n)) <= 10)%Q.
Proof.
  intros Hzero Hd Hf.
  destruct (run_inv actions s) as (s' & Hrun & Hok & _).
  - intros n. unfold congestion_ok. rewrite Hzero. split; cbn; unfold inject_Z; lra.
  - now split.
  - exists s'. split; [exact Hrun|exact Hok].
Qed.

(** C8: when the simulation runs, the source drawn has a controller whose
    window is not full and the router returns a path, the call of
    [start_packet_generation] returns; [track_performance] is applied once,
    after the loss branch as well as after the send branch, to the total
    latency and the length of the path the router returned before any loss
    was sampled; and [routing_stats['total_packets']] is one more than
    before, the last entry of the history holding that latency. *)
Theorem attempt_is_tracked (d : Draws) (s : t) (source destination : node)
    (c : TCP.t) (path : list node) (total_latency : Router.distance) :
  simulation_running s = true ->
  1 < length (nodes s) ->
  choice (nodes s) (pick_source d) = Returns source ->
  choice (filter (fun n => n ≠ source) (nodes s)) (pick_destination d)
    = Returns destination ->
  Node.tcp_control (heap s source) = Some c ->
  (Node.packets_in_flight (heap s source) < TCP.get_window_size c)%Z ->
  Router.dijkstra_shortest_path (topology s) source destination
    = Returns (Some path, total_latency) ->
  exists sent : t,
    (let (packet_loss, s1) := sample_loss (random d) 0 path s in
     if packet_loss then sent = on_loss source path s1
     else on_send d source destination path total_latency s1 = Returns sent) /\
    start_packet_generation d s =
      Returns (finish d (track_performance total_latency (Z.of_nat (length path))
                           (track_time d) (history_time d) sent)) /\
    forall s', start_packet_generation d s = Returns s' ->
      total_packets (routing_stats s') = (total_packets (routing_stats s) + 1)%Z /\
      exists e, last (path_history (routing_stats s')) = Some e /\
        latency e = total_latency /\ hops e = (Z.of_nat (length path) - 1)%Z.
Proof.
  intros Hrun Hlen Hsource Hdest Hc Hwin Hfound.
  destruct (RouterFacts.dijkstra_returns (topology s) source destination)
    as (found & Hfound' & Hpost).
  rewrite Hfound in Hfound'. injection Hfound' as <-.
  destruct total_latency as [total|]; [|contradiction].
  destruct Hpost as (Hpath & _ & _).
  destruct (RouterFacts.is_path_head _ _ _ _ Hpath) as [rest ->].
  destruct (attempt_spec d source destination (source :: rest) total s)
    as (sent & Hsent & Hattempt & Hframe & _).
  exists sent. split; [exact Hsent|].
  assert (Hstart : start_packet_generation d s =
            Returns (finish d (track_performance (Router.Finite total)
                       (Z.of_nat (length (source :: rest)))
                       (track_time d) (history_time d) sent))).
  { unfold start_packet_generation.
    rewrite Hrun, (proj2 (Nat.ltb_lt _ _) Hlen). cbn [andb].
    rewrite Hsource. cbn [bind]. rewrite Hdest. cbn [bind].
    rewrite Hc, (proj2 (Z.ltb_lt _ _) Hwin), Hfound. cbn [bind fst snd].
    unfold node in Hattempt. rewrite Hattempt. reflexivity. }
  split; [exact Hstart|].
  intros s' Hs'. rewrite Hstart in Hs'. injection Hs' as <-.
  rewrite (frame_routing_stats _ _ (finish_frame d _)).
  destruct (track_performance_records (Router.Finite total)
              (Z.of_nat (length (source :: rest))) (track_time d) (history_time d) sent)
    as (Htotal & e & He & Hhops & Hlat).
  split.
  - etransitivity; [exact Htotal|]. now rewrite (frame_routing_stats _ _ Hframe).
  - exists e. split; [exact He|]. split; [exact Hlat|exact Hhops].
Qed.

End Rounding.

Lemma congestion_stays_in_range_witness :
  exists s', @run exact_rounding (init (Float 0))
               [AddNode Node.router
                  {| draw_x := 100; draw_y := 100; draw_latency := 20;
                     draw_throughput := 500; draw_now := Float 0 |};
                AddNode Node.pc
                  {| draw_x := 300; draw_y := 300; draw_latency := 10;
                     draw_throughput := 200; draw_now := Float 0 |};
                ToggleConnectionMode; CanvasClick 100 100; CanvasClick 300 300;
                ToggleSimulation example_draws;
                HandlePacketAck 0 [0; 1] (Float 5);
                StartPacketGeneration example_draws;
                DecayCongestion] = Returns s' /\
    forall n, (0 <= val (Node.congestion (heap s' n)))%Q /\
              (val (Node.congestion (heap s' n)) <= 10)%Q.
Proof.
  apply (@congestion_stays_in_range exact_rounding TCPFacts.exact_rounding_ok
           (init (Float 0))).
  - intros n. reflexivity.
  - apply NoDup_nil_2.
  - intros n Hn. inversion Hn.
Defined.

Lemma attempt_is_tracked_witness :
  exists s', @start_packet_generation exact_rounding example_draws running_example
               = Returns s' /\
    total_packets (routing_stats s') = 1%Z.
Proof.
  destruct (@attempt_is_tracked exact_rounding TCPFacts.exact_rounding_ok
              example_draws running_example 0 1 TCP.TCPReno [0; 1] (Router.Finite 20)
              eq_refl ltac:(vm_compute; lia) eq_refl eq_refl eq_refl eq_refl
              ltac:(vm_compute; reflexivity)) as (sent & _ & Hstart & Hstats).
  eexists. split; [exact Hstart|]. exact (proj1 (Hstats _ Hstart)).
Defined.

End SimFacts.

(** ** The topology the simulator hands to the router *)

Module TopologyFacts.
Import Py Sim SimFacts.

Lemma same_topology_refl (s : t) : same_topology s s.
Proof. now split. Qed.

Lemma same_topology_trans (s1 s2 s3 : t) :
  same_topology s1 s2 -> same_topology s2 s3 -> same_topology s1 s3.
Proof.
  intros [Hn Ha Hs Hc Hl] [Hn' Ha' Hs' Hc' Hl'].
  split; try (etransitivity; eassumption).
  - intros n. now rewrite Hc', Hc.
  - intros n. now rewrite Hl', Hl.
Qed.

Lemma same_topology_update (n : node) (f : Node.t -> Node.t) (s : t) :
  keeps_links f -> same_topology s (update n f s).
Proof.
  intros Hf. split; try reflexivity; intros k; cbn; case_decide;
    try reflexivity; apply Hf.
Qed.

Lemma same_topology_update_all (ns : list node) (f : Node.t -> Node.t) (s : t) :
  keeps_links f -> same_topology s (update_all ns f s).
Proof.
  intros Hf. revert s. induction ns as [|n ns IH]; intros s; [apply same_topology_refl|].
  apply (same_topology_trans _ (update n f s));
    [now apply same_topology_update|apply IH].
Qed.

Lemma linked_ok_same (s s' : t) : same_topology s s' -> linked_ok s -> linked_ok s'.
Proof.
  intros [Hn Ha Hs Hc Hl] [Hi Hb Hsel Hlat]. split.
  - intros m n. rewrite Hc, Hn. apply Hi.
  - intros m n. rewrite !Hc. apply Hb.
  - intros a. rewrite Hs, Hn. apply Hsel.
  - intros n. rewrite Hn, Hl. apply Hlat.
Qed.

Lemma same_topology_timers (l : list (Z * callback)) (s : t) :
  same_topology s (with_timers l s).
Proof. now split. Qed.

(** The assignments of the engine keep connections and latencies. *)
Lemma keeps_set_congestion (g : Node.t -> num) :
  keeps_links (fun r => Node.set_congestion (g r) r).
Proof. intros r. now split. Qed.

Lemma keeps_set_packet_loss_probability (g : Node.t -> num) :
  keeps_links (fun r => Node.set_packet_loss_probability (g r) r).
Proof. intros r. now split. Qed.

Lemma keeps_set_packets_in_flight (g : Node.t -> Z) :
  keeps_links (fun r => Node.set_packets_in_flight (g r) r).
Proof. intros r. now split. Qed.

Lemma keeps_set_last_ack_time (now : num) : keeps_links (Node.set_last_ack_time now).
Proof. intros r. now split. Qed.

Lemma keeps_set_tcp_control (c : option TCP.t) : keeps_links (Node.set_tcp_control c).
Proof. intros r. now split. Qed.

Lemma keeps_with_control (f : TCP.t -> TCP.t) : keeps_links (Node.with_control f).
Proof. intros r. now split. Qed.

Section Rounding.
Context `{Rounding}.

Lemma keeps_check_node (now : num) : keeps_links (check_node now).
Proof.
  intros r. unfold check_node.
  destruct (Node.tcp_control r); [|now split].
  destruct (0 <? _)%Z; [|now split].
  destruct (gtb _ _); now split.
Qed.

Lemma keeps_decay_node (load : TrafficLoad) : keeps_links (decay_node load).
Proof. intros r. unfold decay_node. destruct (gtb _ _); now split. Qed.

Lemma sample_loss_topology (rand : nat -> Q) (path : list node) :
  forall k s, same_topology s (sample_loss rand k path s).2.
Proof.
  induction path as [|n path IH]; intros k s; [apply same_topology_refl|].
  cbn [sample_loss].
  pose proof (same_topology_update n _ s
                (keeps_set_packet_loss_probability (fun r =>
                   min (lit (3 # 10)) (mul (Node.congestion r) (lit (3 # 100))))))
    as Hup.
  destruct (ltb _ _); [exact Hup|].
  eapply same_topology_trans; [exact Hup|apply IH].
Qed.

Lemma on_loss_topology (source : node) (path : list node) (s : t) :
  same_topology s (on_loss source path s).
Proof.
  unfold on_loss. eapply same_topology_trans.
  - apply same_topology_update, keeps_with_control.
  - apply same_topology_update_all, keeps_set_congestion.
Qed.

Lemma on_send_topology (d : Draws) (source destination : node) (path : list node)
    (total : Router.distance) (s sent : t) :
  on_send d source destination path total s = Returns sent -> same_topology s sent.
Proof.
  unfold on_send. destruct total as [total|]; [|discriminate].
  cbn [int_of_distance bind]. intros [= <-].
  eapply same_topology_trans; [|apply same_topology_update_all, keeps_set_congestion].
  eapply same_topology_trans; [|apply same_topology_timers].
  eapply same_topology_trans;
    [|apply (same_topology_update source), keeps_with_control].
  eapply same_topology_trans;
    [|apply (same_topology_update source), keeps_set_packets_in_flight].
  now split.
Qed.

Lemma track_performance_topology (l : Router.distance) (h : Z) (t1 t2 : num) (s : t) :
  same_topology s (track_performance l h t1 t2 s).
Proof. unfold track_performance. destruct (50 <? _)%nat; now split. Qed.

Lemma finish_topology (d : Draws) (s : t) : same_topology s (finish d s).
Proof.
  unfold finish. eapply same_topology_trans.
  - apply (same_topology_update_all (nodes s) (check_node (check_time d)) s),
      keeps_check_node.
  - now split.
Qed.

Lemma attempt_topology (d : Draws) (source destination : node) (path : list node)
    (total : Router.distance) (s s' : t) :
  attempt d source destination path total s = Returns s' -> same_topology s s'.
Proof.
  unfold attempt.
  pose proof (sample_loss_topology (random d) path 0 s) as H1.
  destruct (sample_loss (random d) 0 path s) as [lost s1]. cbn [snd] in H1.
  destruct lost; cbn [bind].
  - intros [= <-].
    eapply same_topology_trans; [exact H1|].
    eapply same_topology_trans; [apply on_loss_topology|apply track_performance_topology].
  - destruct (on_send d source destination path total s1) as [sent| |] eqn:Hsend;
      try discriminate.
    cbn [bind]. intros [= <-].
    eapply same_topology_trans; [exact H1|].
    eapply same_topology_trans;
      [exact (on_send_topology _ _ _ _ _ _ _ Hsend)|apply track_performance_topology].
Qed.

Lemma start_packet_generation_topology (d : Draws) (s s' : t) :
  start_packet_generation d s = Returns s' -> same_topology s s'.
Proof.
  unfold start_packet_generation.
  destruct (simulation_running s && _); [|intros [= <-]; apply same_topology_refl].
  destruct (choice (nodes s) (pick_source d)) as [source| |]; try discriminate.
  cbn [bind].
  destruct (choice _ (pick_destination d)) as [destination| |]; try discriminate.
  cbn [bind].
  assert (Hdone : forall s1, same_topology s s1 ->
            Returns (finish d s1) = Returns s' -> same_topology s s').
  { intros s1 H1 [= <-]. eapply same_topology_trans; [exact H1|apply finish_topology]. }
  destruct (Node.tcp_control (heap s source)) as [c|];
    [|apply Hdone, same_topology_refl].
  destruct (_ <? _)%Z; [|apply Hdone, same_topology_refl].
  destruct (Router.dijkstra_shortest_path _ source destination) as [found| |];
    try discriminate.
  cbn [bind]. destruct found.1 as [[|n rest]|]; try apply Hdone, same_topology_refl.
  destruct (attempt _ _ _ _ _ _) as [s1| |] eqn:Hs1; try discriminate.
  cbn [bind]. apply Hdone. exact (attempt_topology _ _ _ _ _ _ _ Hs1).
Qed.

Lemma handle_packet_ack_topology (source : node) (path : list node) (now : num) (s : t) :
  same_topology s (handle_packet_ack source path now s).
Proof.
  unfold handle_packet_ack. destruct (Node.tcp_control _); [|apply same_topology_refl].
  eapply same_topology_trans; [|apply same_topology_update_all, keeps_set_congestion].
  eapply same_topology_trans; [|apply same_topology_update, keeps_set_last_ack_time].
  eapply same_topology_trans;
    [|apply (same_topology_update source), keeps_set_packets_in_flight].
  apply same_topology_update, keeps_with_control.
Qed.

Lemma decay_congestion_topology (s : t) : same_topology s (decay_congestion s).
Proof.
  unfold decay_congestion. destruct (simulation_running s); [|apply same_topology_refl].
  eapply same_topology_trans.
  - apply (same_topology_update_all (nodes s) (decay_node (traffic_load s)) s),
      keeps_decay_node.
  - now split.
Qed.

Lemma set_congestion_algorithm_topology (a : TCP.Algorithm) (s : t) :
  same_topology s (set_congestion_algorithm a s).
Proof.
  unfold set_congestion_algorithm.
  eapply same_topology_trans; [|apply same_topology_update_all, keeps_set_tcp_control].
  now split.
Qed.

End Rounding.

(** *** The commands that change the topology *)

Lemma add_node_linked_ok (node_type : Node.NodeType) (d : NodeDraws) (s : t) :
  (5 <= draw_latency d <= 50)%Z -> wf s -> linked_ok s ->
  linked_ok (add_node node_type d s).
Proof.
  intros Hd [_ Hfresh] [Hi Hb Hsel Hlat].
  assert (Hnew : forall n, n ∈ nodes s -> n ≠ allocated s).
  { intros n Hn. specialize (Hfresh n Hn). lia. }
  unfold add_node. split; cbn.
  - intros m n. case_decide as Hm; [cbn; intros Hn; inversion Hn|].
    intros Hn. destruct (Hi m n Hn) as [Hm' Hn'].
    split; apply elem_of_app; now left.
  - intros m n. case_decide as Hm; [cbn; intros Hn; inversion Hn|].
    intros Hn. destruct (Hi m n Hn) as [_ Hn'].
    rewrite decide_False by now apply Hnew. now apply Hb.
  - intros a Ha. apply elem_of_app. left. now apply Hsel.
  - intros n Hn. case_decide as Hk; [cbn; exact Hd|].
    apply elem_of_app in Hn as [Hn|Hn]; [now apply Hlat|].
    apply list_elem_of_singleton in Hn. contradiction.
Qed.

Lemma get_node_at_inside (s : t) (x y : Z) (n : node) :
  get_node_at s x y = Some n -> n ∈ nodes s.
Proof.
  unfold get_node_at. intros Hf. apply find_some in Hf as [Hin _].
  now apply list_elem_of_In.
Qed.

Lemma elem_of_link (a b : node) (s : t) (m n : node) :
  n ∈ Node.connections (heap (link a b s) m) <->
  n ∈ Node.connections (heap s m) \/ (m = a /\ n = b) \/ (m = b /\ n = a).
Proof.
  unfold link. cbn. repeat case_decide; subst; cbn;
    rewrite ?elem_of_app, ?list_elem_of_singleton; intuition congruence.
Qed.

Lemma latency_link (a b : node) (s : t) (n : node) :
  Node.latency (heap (link a b s) n) = Node.latency (heap s n).
Proof. unfold link. cbn. repeat case_decide; reflexivity. Qed.

Lemma link_linked_ok (a b : node) (s : t) :
  a ∈ nodes s -> b ∈ nodes s -> linked_ok s -> linked_ok (link a b s).
Proof.
  intros Ha Hb [Hi Hbw Hsel Hlat]. split.
  - intros m n Hn. change (nodes (link a b s)) with (nodes s).
    apply elem_of_link in Hn as [Hn|[[-> ->]|[-> ->]]]; auto.
  - intros m n Hn. apply elem_of_link.
    apply elem_of_link in Hn as [Hn|[[-> ->]|[-> ->]]]; auto.
  - exact Hsel.
  - intros n Hn. rewrite latency_link. now apply Hlat.
Qed.

Lemma on_canvas_click_linked_ok (x y : Z) (s : t) :
  linked_ok s -> linked_ok (on_canvas_click x y s).
Proof.
  intros Hok. unfold on_canvas_click, click.
  destruct (get_node_at s x y) as [c|] eqn:Hc; [|exact Hok].
  apply get_node_at_inside in Hc.
  destruct (connection_mode s).
  - destruct (selected_node s) as [a|] eqn:Ha.
    + destruct (decide (a = c)) as [->|Hne]; [exact Hok|].
      assert (Hin : a ∈ nodes s) by now apply (selected_inside s Hok).
      destruct (bool_decide _).
      * destruct Hok as [Hi Hb Hsel Hlat]. split; try assumption. discriminate.
      * destruct (link_linked_ok a c s Hin Hc Hok) as [Hi Hb Hsel Hlat].
        split; try assumption. discriminate.
    + destruct Hok as [Hi Hb Hsel Hlat]. split; try assumption.
      cbn. intros a' [= <-]. exact Hc.
  - destruct Hok as [Hi Hb Hsel Hlat]. now split.
Qed.

Lemma on_canvas_click_wf (x y : Z) (s : t) : wf s -> wf (on_canvas_click x y s).
Proof. apply wf_frame, click_frame. Qed.

Section Rounding.
Context `{RoundingOk}.

Lemma step_linked_ok (a : action) (s s' : t) :
  latency_drawn a -> wf s -> linked_ok s ->
  step s a = Returns s' -> linked_ok s'.
Proof.
  intros Hd Hwf Hok.
  destruct a as [node_type d| |x y|load|algorithm|d|d|source path now|]; cbn [step].
  - intros [= <-]. now apply add_node_linked_ok.
  - intros [= <-]. unfold toggle_connection_mode.
    destruct Hok as [Hi Hb Hsel Hlat].
    destruct (connection_mode _); split; try assumption. discriminate.
  - intros [= <-]. now apply on_canvas_click_linked_ok.
  - intros [= <-]. unfold set_traffic_load.
    destruct Hok as [Hi Hb Hsel Hlat]. destruct load; now split.
  - intros [= <-].
    exact (linked_ok_same _ _ (set_congestion_algorithm_topology algorithm s) Hok).
  - unfold toggle_simulation. cbn [simulation_running with_simulation_running].
    destruct (negb (simulation_running s)).
    + destruct (start_packet_generation d _) as [s1| |] eqn:Hs1; try discriminate.
      cbn [bind]. intros [= <-].
      apply (linked_ok_same s1); [apply decay_congestion_topology|].
      apply (linked_ok_same _ _ (start_packet_generation_topology _ _ _ Hs1)).
      destruct Hok as [Hi Hb Hsel Hlat]. now split.
    + intros [= <-]. destruct Hok as [Hi Hb Hsel Hlat]. now split.
  - intros Hs'. exact (linked_ok_same _ _ (start_packet_generation_topology _ _ _ Hs') Hok).
  - intros [= <-]. exact (linked_ok_same _ _ (handle_packet_ack_topology _ _ _ s) Hok).
  - intros [= <-]. exact (linked_ok_same _ _ (decay_congestion_topology s) Hok).
Qed.

Lemma run_linked_ok (actions : list action) :
  forall s s', Forall latency_drawn actions -> all_ok s -> wf s -> linked_ok s ->
  run s actions = Returns s' -> linked_ok s'.
Proof.
  induction actions as [|a actions IH]; intros s s' Hd Hok Hwf Hl; cbn [run].
  - now intros [= <-].
  - apply Forall_cons in Hd as [Ha Hd].
    destruct (step_inv a s Hok Hwf) as (s1 & Hs1 & Hok1 & Hwf1).
    rewrite Hs1. cbn [bind]. apply (IH s1); try assumption.
    exact (step_linked_ok a s s1 Ha Hwf Hl Hs1).
Qed.

End Rounding.

Lemma linked_ok_init (now : num) : linked_ok (init now).
Proof.
  split; cbn.
  - intros m n Hn. inversion Hn.
  - intros m n Hn. inversion Hn.
  - discriminate.
  - intros n Hn. inversion Hn.
Qed.

Lemma wf_init (now : num) : wf (init now).
Proof. split; [apply NoDup_nil_2|intros n Hn; inversion Hn]. Qed.

Lemma all_ok_init (now : num) : all_ok (init now).
Proof. intros n. split; cbn; unfold inject_Z; lra. Qed.

(** The hypotheses under which the router is proved correct hold of every
    topology the simulator can hand to it: whatever the user and the
    timers did since the simulator was created, the connections of its
    nodes lead to its nodes and go both ways, and the latencies are in the
    range they were drawn from. *)
Theorem topology_well_formed `{RoundingOk} (now : num) (actions : list action) (s : t) :
  Forall latency_drawn actions ->
  run (init now) actions = Returns s ->
  Router.wf_links (topology s) /\ Router.wf_latency (topology s) /\
  Router.symmetric_links (topology s).
Proof.
  intros Hd Hrun.
  destruct (run_linked_ok actions (init now) s Hd (all_ok_init now) (wf_init now)
              (linked_ok_init now) Hrun) as [Hi Hb _ Hlat].
  split; [|split].
  - split. intros m n _ Hl. exact (proj2 (Hi m n Hl)).
  - split. exact Hlat.
  - intros m n Hl. exact (Hb m n Hl).
Qed.

End TopologyFacts.
